(** * Linear classifiers of PRML (classifications.py), verified over the reals

    The estimators of [classifications.py] are embedded as functions on
    MathComp matrices whose entries are the real numbers of the Standard
    Library: a numpy array of shape (n, d) is a ['M[R]_(n, d)], a 1-D
    array of length n is a column ['cV[R]_n], so that ill-shaped calls are
    excluded by typing.  float64 arithmetic is idealised as exact real
    arithmetic throughout.  The routines of numpy.linalg that may raise
    [LinAlgError] are parameters of the development (an exact instance is
    given for them), and the module [distributions], which is not part of
    this file of the repository, enters through its two attributes. *)

Set Warnings "-notation-overridden,-ambiguous-paths,-notation-incompatible-prefix".
Set Warnings "-rewrite-rw,-redundant-canonical-projection".
From Stdlib Require Import Reals Lra ClassicalEpsilon FunctionalExtensionality.
From HB Require Import structures.
From mathcomp Require Import boot order ssralg ssrnum ssrint matrix mxalgebra.

Set Implicit Arguments.
Unset Strict Implicit.
Unset Printing Implicit Defensive.

Delimit Scope R_scope with coqR.
Import Order.TTheory GRing.Theory Num.Theory.
Local Open Scope ring_scope.

(** ** The reals as a MathComp field *)

Definition Req_bool (x y : R) : bool := if Req_dec_T x y then true else false.

Lemma Req_boolP : Equality.axiom Req_bool.
Proof. by move=> x y; rewrite /Req_bool; case: Req_dec_T => h; constructor. Qed.

HB.instance Definition _ := hasDecEq.Build R Req_boolP.

Definition Rfind (P : pred R) (_ : nat) : option R :=
  match excluded_middle_informative (exists x, P x) with
  | left ex => Some (proj1_sig (constructive_indefinite_description _ ex))
  | right _ => None
  end.

Lemma Rfind_some P n x : Rfind P n = Some x -> P x.
Proof.
rewrite /Rfind; case: excluded_middle_informative => // ex [<-].
exact: (proj2_sig (constructive_indefinite_description _ ex)).
Qed.

Lemma Rfind_ex (P : pred R) : (exists x, P x) -> exists n, Rfind P n.
Proof. by move=> ex; exists 0%N; rewrite /Rfind; case: excluded_middle_informative. Qed.

Lemma Rfind_ext (P Q : pred R) : P =1 Q -> Rfind P =1 Rfind Q.
Proof. by move=> /functional_extensionality ->. Qed.

HB.instance Definition _ := hasChoice.Build R Rfind_some Rfind_ex Rfind_ext.

Lemma RplusA : associative Rplus.
Proof. by move=> x y z; rewrite Rplus_assoc. Qed.

Lemma Rplus0 : left_id 0%coqR Rplus.
Proof. exact: Rplus_0_l. Qed.

Lemma RplusN : left_inverse 0%coqR Ropp Rplus.
Proof. exact: Rplus_opp_l. Qed.

HB.instance Definition _ := GRing.isZmodule.Build R RplusA Rplus_comm Rplus0 RplusN.

Lemma RmultA : associative Rmult.
Proof. by move=> x y z; rewrite Rmult_assoc. Qed.

Lemma Rmult1 : left_id 1%coqR Rmult.
Proof. exact: Rmult_1_l. Qed.

Lemma RmultDl : left_distributive Rmult Rplus.
Proof. by move=> x y z; rewrite Rmult_plus_distr_r. Qed.

Lemma Rone_neq0 : 1%coqR != 0%coqR.
Proof. by apply/eqP; exact: R1_neq_R0. Qed.

HB.instance Definition _ :=
  GRing.Zmodule_isComNzRing.Build R RmultA Rmult_comm Rmult1 RmultDl Rone_neq0.

Lemma RmultV (x : R) : x != 0 -> Rmult (Rinv x) x = 1%coqR.
Proof. by move/eqP => h; apply: Rinv_l. Qed.

HB.instance Definition _ := GRing.ComNzRing_isField.Build R RmultV Rinv_0.

(** ** Python outcomes and loops *)

(** The exceptions the estimators can raise on well-shaped input. *)
Inductive exn := AssertionError | ValueError | UnboundLocalError | LinAlgError.

(** Every [fit] returns [None]; a call either returns or raises. *)
Inductive outcome := Returns | Raises (e : exn).

Inductive flow := Next | Break.

(** [range(iter_max)] for a Python int, empty when [iter_max <= 0]. *)
Definition range (stop : int) : seq nat :=
  if stop is Posz k then iota 0 k else [::].

(** [for i in idx: body], where the body may [break].  The first component
    of the result is the binding of the loop variable [i] when the loop is
    left: [None] when it was never assigned. *)
Fixpoint for_in (S : Type) (body : S -> flow * S) (idx : seq nat)
    (i : option nat) (s : S) : option nat * S :=
  if idx is j :: rest then
    let: (f, s') := body s in
    if f is Break then (Some j, s') else for_in body rest (Some j) s'
  else (i, s).

(** ** numpy *)

Definition Rleb (x y : R) : bool := if Rle_dec x y then true else false.

Definition rtol : R := (1e-5)%coqR.
Definition atol : R := (1e-8)%coqR.

(** [np.allclose(a, b)] with its default tolerances:
    every entry has [|a - b| <= atol + rtol * |b|]. *)
Definition allclose m n (a b : 'M[R]_(m, n)) : bool :=
  [forall i, forall j, Rleb (Rabs (a i j - b i j)) (atol + rtol * Rabs (b i j))].

(** [np.divide(1, 1 + np.exp(-a))] on one entry of an array. *)
Definition sigmoid (a : R) : R := 1 / (1 + exp (- a)).

(** A covariance matrix is positive semi-definite. *)
Definition positive_semidefinite d (A : 'M[R]_d) : Prop :=
  forall x : 'rV[R]_d, Rle 0 ((x *m A *m x^T) 0 0).

(** The scan behind [np.argmax]: the candidate is replaced only by a
    strictly larger entry, so the first of the largest entries is kept. *)
Fixpoint argmax_from (a : nat -> R) (best : nat) (ks : seq nat) : nat :=
  if ks is k :: ks' then
    argmax_from a (if Rlt_dec (a best) (a k) then k else best) ks'
  else best.

(** [np.argmax(a)] on a 1-D array of q + 1 numbers. *)
Definition np_argmax q (a : 'rV[R]_q.+1) : nat :=
  argmax_from (fun k => a 0 (inord k)) 0 (iota 1 q).

(** The signature of [np.linalg.solve] on one square system: [None] stands
    for [LinAlgError]. *)
Definition solver := forall d, 'M[R]_d -> 'cV[R]_d -> option 'cV[R]_d.

(** The signature of [np.linalg.inv]. *)
Definition inverter := forall d, 'M[R]_d -> option 'M[R]_d.

(** What the linear algebra backend promises when it does not raise. *)
Definition solver_sound (solve : solver) : Prop :=
  forall d (A : 'M[R]_d) b x, solve d A b = Some x -> A *m x = b.

Definition inverter_sound (inv : inverter) : Prop :=
  forall d (A : 'M[R]_d) B, inv d A = Some B -> A *m B = 1%:M.

(** The exact backend: it raises on singular matrices and only there. *)
Definition exact_solve : solver :=
  fun d A b => if A \in unitmx then Some (invmx A *m b) else None.

Definition exact_inv : inverter :=
  fun d A => if A \in unitmx then Some (invmx A) else None.

(** ** class LogisticRegression *)

Module LogisticRegression.
Section Estimator.
Variable solve : solver.
Variable alpha : R.
Variables n d : nat.

(** The attributes [fit] leaves on the object; [n_iter] is [None] when the
    call did not assign it. *)
Record attrs := Attrs { w : 'cV[R]_d; n_iter : option nat }.

Definition _sigmoid p q (a : 'M[R]_(p, q)) : 'M[R]_(p, q) :=
  map_mx sigmoid a.

Definition predict_proba p (self_w : 'cV[R]_d) (X : 'M[R]_(p, d)) : 'cV[R]_p :=
  _sigmoid (X *m self_w).

Definition predict p (self_w : 'cV[R]_d) (X : 'M[R]_(p, d)) : 'cV[nat]_p :=
  \col_i (if Rlt_dec (0.5)%coqR (predict_proba self_w X i 0) then 1%N else 0%N).

Definition gradient (X : 'M[R]_(n, d)) (t y : 'cV[R]_n) (w : 'cV[R]_d) : 'cV[R]_d :=
  X^T *m (y - t) + alpha *: w.

Definition hessian (X : 'M[R]_(n, d)) (y : 'cV[R]_n) : 'M[R]_d :=
  (\matrix_(j, i) (X^T j i * y i 0 * (1 - y i 0))) *m X + alpha *: 1%:M.

(** One pass through the body of the loop of [fit], from the value of
    [self.w] at its start. *)
Definition fit_body (X : 'M[R]_(n, d)) (t : 'cV[R]_n) (self_w : 'cV[R]_d) :
    flow * 'cV[R]_d :=
  let w := self_w in
  let y := predict_proba self_w X in
  let grad := gradient X t y w in
  let hessian := hessian X y in
  match solve hessian grad with
  | None => (Break, self_w)
  | Some delta =>
      let self_w := self_w - delta in
      if allclose w self_w then (Break, self_w) else (Next, self_w)
  end.

Definition fit (X : 'M[R]_(n, d)) (t : 'cV[R]_n) (iter_max : int) : attrs * outcome :=
  let self_w := 0 in
  let: (i, self_w) := for_in (fit_body X t) (range iter_max) None self_w in
  if i is Some i then (Attrs self_w (Some i.+1), Returns)
  else (Attrs self_w None, Raises UnboundLocalError).

End Estimator.
End LogisticRegression.

(** ** class MultiLogisticRegression *)

(** A 3-index numpy array of shape (a, b, c). *)
Definition array3 (a b c : nat) := {ffun 'I_a * 'I_b * 'I_c -> R}.

(** [A.T] on a 3-index array reverses the axes. *)
Definition T3 a b c (A : array3 a b c) : array3 c b a :=
  [ffun kji => A (kji.2, kji.1.2, kji.1.1)].

(** [A[k]], the k-th matrix of a stack. *)
Definition stack_item a b c (A : array3 a b c) (k : 'I_a) : 'M[R]_(b, c) :=
  \matrix_(i, j) A (k, i, j).

(** [np.linalg.solve(a, b)] on a stack [a] of K square systems, of shape
    (K, d, d), with [b] of shape (K, d): numpy 1.x, which this code is
    written for (it uses [np.int]), reads a [b] with one dimension fewer
    than [a] as the stack of the K right-hand sides [b[k]].  One
    [LinAlgError] fails the whole call. *)
Definition solve_stack (solve : solver) K d (a : array3 K d d) (b : 'M[R]_(K, d)) :
    option 'M[R]_(K, d) :=
  let x k := solve d (stack_item a k) (row k b)^T in
  if [forall k, x k] then Some (\matrix_(k, j) odflt 0 (x k) j 0) else None.

Module MultiLogisticRegression.
Section Estimator.
Variable solve : solver.
Variable alpha : R.
Variables n d : nat.

Record attrs K := Attrs { w : 'M[R]_(d, K); n_iter : option nat }.

Definition _softmax p q (a : 'M[R]_(p, q.+1)) : 'M[R]_(p, q.+1) :=
  let a_max := \col_i \big[Rmax/a i ord0]_j a i j in
  let exp_a := \matrix_(i, j) exp (a i j - a_max i 0) in
  \matrix_(i, j) (exp_a i j / \sum_k exp_a i k).

Definition predict_proba p q (self_w : 'M[R]_(d, q.+1)) (X : 'M[R]_(p, d)) :
    'M[R]_(p, q.+1) :=
  _softmax (X *m self_w).

Definition predict p q (self_w : 'M[R]_(d, q.+1)) (X : 'M[R]_(p, d)) : 'cV[nat]_p :=
  \col_i np_argmax (row i (predict_proba self_w X)).

(** [np.max(t) + 1] *)
Definition n_classes (t : 'cV[nat]_n) : nat := (\max_i t i ord0).+1.

(** [np.eye(n_classes)[t]] *)
Definition one_hot (t : 'cV[nat]_n) : 'M[R]_(n, n_classes t) :=
  \matrix_(i, k) (t i 0 == k :> nat)%:R.

Definition gradient K (X : 'M[R]_(n, d)) (T y : 'M[R]_(n, K)) (w : 'M[R]_(d, K)) :
    'M[R]_(d, K) :=
  X^T *m (y - T) + alpha *: w.

(** [np.einsum('ink,nj->ijk', X.T[:, :, None] * y * (1 - y), X) + self.alpha * I]
    with [I = np.eye(len(self.w))[:, :, None]] *)
Definition hessian K (X : 'M[R]_(n, d)) (y : 'M[R]_(n, K)) : array3 d d K :=
  [ffun ijk => let: (i, j, k) := ijk in
     \sum_m (X^T i m * y m k * (1 - y m k)) * X m j + alpha * (1%:M : 'M[R]_d) i j].

Definition fit_body q (X : 'M[R]_(n, d)) (T : 'M[R]_(n, q.+1))
    (self_w : 'M[R]_(d, q.+1)) : flow * 'M[R]_(d, q.+1) :=
  let w := self_w in
  let y := predict_proba self_w X in
  let grad := gradient X T y w in
  let hessian := hessian X y in
  match solve_stack solve (T3 hessian) grad^T with
  | None => (Break, self_w)
  | Some delta =>
      let self_w := self_w - delta^T in
      if allclose w self_w then (Break, self_w) else (Next, self_w)
  end.

(** No attribute is assigned ([None]) when [np.max] raises on an empty [t]. *)
Definition fit (X : 'M[R]_(n, d)) (t : 'cV[nat]_n) (iter_max : int) :
    option (attrs (n_classes t)) * outcome :=
  if n is 0 then (None, Raises ValueError) else
  let T := one_hot t in
  let self_w := 0 in
  let: (i, self_w) := for_in (fit_body X T) (range iter_max) None self_w in
  if i is Some i then (Some (Attrs self_w (Some i.+1)), Returns)
  else (Some (Attrs self_w None), Raises UnboundLocalError).

End Estimator.
End MultiLogisticRegression.

(** ** class LeastSquares *)

Module LeastSquares.
Section Estimator.
(** [np.linalg.pinv]: [None] stands for the [LinAlgError] it raises when
    its decomposition does not converge. *)
Variable pinv : forall n d, 'M[R]_(n, d) -> option 'M[R]_(d, n).
Variables n d : nat.

(** The attribute [self.W] is set only when [fit] returns. *)
Definition fit (X : 'M[R]_(n, d)) (t : 'cV[nat]_n) :
    option 'M[R]_(d, MultiLogisticRegression.n_classes t) * outcome :=
  if n is 0 then (None, Raises ValueError) else
  let T := MultiLogisticRegression.one_hot t in
  match pinv X with
  | None => (None, Raises LinAlgError)
  | Some X_pinv => (Some (X_pinv *m T), Returns)
  end.

Definition predict p q (self_W : 'M[R]_(d, q.+1)) (X : 'M[R]_(p, d)) : 'cV[nat]_p :=
  \col_i np_argmax (row i (X *m self_W)).

End Estimator.
End LeastSquares.

(** ** class BayesianLogisticRegression(LogisticRegression) *)

Module BayesianLogisticRegression.
Section Estimator.
Variable solve : solver.
Variable inv : inverter.
Variable alpha : R.
Variables n d : nat.

Record attrs := Attrs {
  w : 'cV[R]_d;
  n_iter : option nat;
  w_cov : option 'M[R]_d
}.

(** [X.T @ np.diag(y * (1 - y)) @ X + self.alpha * np.eye(len(self.w))] *)
Definition hessian (X : 'M[R]_(n, d)) (y : 'cV[R]_n) : 'M[R]_d :=
  X^T *m diag_mx (\row_i (y i 0 * (1 - y i 0))) *m X + alpha *: 1%:M.

Definition fit (X : 'M[R]_(n, d)) (t : 'cV[R]_n) (iter_max : int) : attrs * outcome :=
  let: (base, out) := LogisticRegression.fit solve alpha X t iter_max in
  let self_w := LogisticRegression.w base in
  let self_n_iter := LogisticRegression.n_iter base in
  if out is Raises e then (Attrs self_w self_n_iter None, Raises e) else
  let y := LogisticRegression.predict_proba self_w X in
  let hessian := hessian X y in
  match inv hessian with
  | None => (Attrs self_w self_n_iter None, Raises LinAlgError)
  | Some self_w_cov => (Attrs self_w self_n_iter (Some self_w_cov), Returns)
  end.

Definition predict_dist p (self_w : 'cV[R]_d) (self_w_cov : 'M[R]_d)
    (X : 'M[R]_(p, d)) : 'cV[R]_p :=
  let mu_a := X *m self_w in
  let var_a : 'cV[R]_p := \col_i \sum_j ((X *m self_w_cov) i j * X i j) in
  LogisticRegression._sigmoid
    (\col_i (mu_a i 0 / sqrt (1 + PI * var_a i 0 / 8%coqR))).

End Estimator.
End BayesianLogisticRegression.

(** ** class GaussianProcessClassifier *)

Module GaussianProcessClassifier.
Section Estimator.
(** The caller's kernel, applied to two arrays of shape (p, q, d). *)
Variable kernel :
  forall p q d, 'M['rV[R]_d]_(p, q) -> 'M['rV[R]_d]_(p, q) -> 'M[R]_(p, q).
Variable inv : inverter.
Variable nu : R.

(** An input of [fit] or [predict]: a 1-D array of p numbers or a 2-D array
    of shape (p, d). *)
Inductive ndarray (p : nat) : nat -> Type :=
  | Array1 (x : 'cV[R]_p) : ndarray p 1
  | Array2 d (X : 'M[R]_(p, d)) : ndarray p d.

(** [if X.ndim == 1: X = X[:, None]] *)
Definition as_2d p d (X : ndarray p d) : 'M[R]_(p, d) :=
  match X with
  | Array1 x => x
  | Array2 _ X => X
  end.

Definition _pairwise p q d (x : 'M[R]_(p, d)) (y : 'M[R]_(q, d)) :
    'M['rV[R]_d]_(p, q) * 'M['rV[R]_d]_(p, q) :=
  (\matrix_(i, j) row i x, \matrix_(i, j) row j y).

Definition _sigmoid p q (a : 'M[R]_(p, q)) : 'M[R]_(p, q) :=
  map_mx sigmoid a.

(** The attributes [self.X], [self.t], [self.covariance] and
    [self.precision]; the last one is not set when the inversion raises. *)
Record attrs n d := Attrs {
  X_ : 'M[R]_(n, d);
  t_ : 'cV[R]_n;
  covariance : 'M[R]_n;
  precision : option 'M[R]_n
}.

Definition fit n d (X : ndarray n d) (t : 'cV[R]_n) : attrs n d * outcome :=
  let X := as_2d X in
  let Gram := kernel (_pairwise X X).1 (_pairwise X X).2 in
  let covariance := Gram + map_mx (fun x => x * nu) 1%:M in
  match inv covariance with
  | None => (Attrs X t covariance None, Raises LinAlgError)
  | Some precision => (Attrs X t covariance (Some precision), Returns)
  end.

(** [predict] on an object whose attributes [X], [t] and [precision] are set. *)
Definition predict n d p (self_X : 'M[R]_(n, d)) (self_t : 'cV[R]_n)
    (self_precision : 'M[R]_n) (X : ndarray p d) : 'cV[R]_p :=
  let X := as_2d X in
  let K := kernel (_pairwise X self_X).1 (_pairwise X self_X).2 in
  let a_mean := K *m self_precision *m self_t in
  _sigmoid a_mean.

End Estimator.
End GaussianProcessClassifier.

(** ** class LinearDiscriminantAnalysis *)

(** [np.max(t)] on integer labels: [None] is the [ValueError] numpy raises
    on an empty array. *)
Definition np_max n : 'cV[int]_n -> option int :=
  if n is n'.+1 then fun t => Some (\big[Num.max/t ord0 0]_i t i 0)
  else fun _ => None.

(** [X[mask]]: the rows of X selected by a boolean mask, in order. *)
Definition mask_rows n d (mask : pred 'I_n) (X : 'M[R]_(n, d)) : 'M[R]_(#|mask|, d) :=
  \matrix_(i, j) X (enum_val i) j.

(** [np.mean(A, axis=0)] *)
Definition mean_axis0 p d (A : 'M[R]_(p, d)) : 'cV[R]_d :=
  \col_j ((\sum_i A i j) / p%:R).

(** [A - m], the 1-D array m subtracted from each row of A. *)
Definition sub_rows p d (A : 'M[R]_(p, d)) (m : 'cV[R]_d) : 'M[R]_(p, d) :=
  \matrix_(i, j) (A i j - m j 0).

(** [np.linalg.norm(w)] *)
Definition norm d (w : 'cV[R]_d) : R := sqrt (\sum_i w i 0 * w i 0).

(** [x.clip(min=lo)] *)
Definition clip_min (x lo : R) : R := Rmax x lo.

Module LinearDiscriminantAnalysis.
Section Estimator.
Variable inv : inverter.
(** The attributes [mean] and [var] of [distributions.Gaussian(sample)]. *)
Variables Gaussian_mean Gaussian_var : forall p, 'cV[R]_p -> R.
Variables n d : nat.

Record attrs := Attrs { w : 'cV[R]_d; threshold : R }.

(** [assert np.max(t) + 1 == 2] *)
Definition check (t : 'cV[int]_n) : outcome :=
  match np_max t with
  | None => Raises ValueError
  | Some m => if m + 1 == 2 then Returns else Raises AssertionError
  end.

Definition cov_inclass (X : 'M[R]_(n, d)) (t : 'cV[int]_n) : 'M[R]_d :=
  let X0 := mask_rows [pred i | t i 0 == 0] X in
  let X1 := mask_rows [pred i | t i 0 == 1] X in
  let m0 := mean_axis0 X0 in
  let m1 := mean_axis0 X1 in
  (sub_rows X0 m0)^T *m (sub_rows X0 m0) + (sub_rows X1 m1)^T *m (sub_rows X1 m1).

Definition fit (X : 'M[R]_(n, d)) (t : 'cV[int]_n) : option attrs * outcome :=
  if check t is Raises e then (None, Raises e) else
  let X0 := mask_rows [pred i | t i 0 == 0] X in
  let X1 := mask_rows [pred i | t i 0 == 1] X in
  let m0 := mean_axis0 X0 in
  let m1 := mean_axis0 X1 in
  let cov_inclass := cov_inclass X t in
  match inv cov_inclass with
  | None => (None, Raises LinAlgError)
  | Some cov_inv =>
      let self_w := cov_inv *m (m1 - m0) in
      let self_w := map_mx (fun x => x / clip_min (norm self_w) (1e-10)%coqR) self_w in
      let g0_mean := Gaussian_mean (X0 *m self_w) in
      let g0_var := Gaussian_var (X0 *m self_w) in
      let g1_mean := Gaussian_mean (X1 *m self_w) in
      let g1_var := Gaussian_var (X1 *m self_w) in
      let a := g1_var - g0_var in
      let b := g0_var * g1_mean - g1_var * g0_mean in
      let c := g1_var * g0_mean ^+ 2 - g0_var * g1_mean ^+ 2
               - g1_var * g0_var * ln (g1_var / g0_var) in
      let self_threshold := (sqrt (b ^+ 2 - a * c) - b) / a in
      (Some (Attrs self_w self_threshold), Returns)
  end.

Definition predict p (self_w : 'cV[R]_d) (self_threshold : R) (X : 'M[R]_(p, d)) :
    'cV[nat]_p :=
  \col_i (if Rlt_dec self_threshold ((X *m self_w) i 0) then 1%N else 0%N).

End Estimator.
End LinearDiscriminantAnalysis.

(** ** The state of a loop at the start of an iteration *)

(** [run body k s] is the state after k passes through [body] from [s],
    none of which left the loop; [None] when one of them did. *)
Fixpoint run (S : Type) (body : S -> flow * S) (k : nat) (s : S) : option S :=
  if k is k'.+1 then
    if (body s).1 is Next then run body k' (body s).2 else None
  else Some s.

(** ** Notions used in the statements *)

(** The block of class k of the Hessian of the multinomial model:
    X^T diag(y[:,k] (1 - y[:,k])) X + alpha I. *)
Definition class_block (alpha : R) n d K (X : 'M[R]_(n, d)) (y : 'M[R]_(n, K))
    (k : 'I_K) : 'M[R]_d :=
  X^T *m diag_mx (\row_i (y i k * (1 - y i k))) *m X + alpha%:M.

(** The set of distinct labels of t is exactly {0, 1}. *)
Definition labels_are_0_1 n (t : 'cV[int]_n) : Prop :=
  forall l : int, (exists i, t i 0 = l) <-> (l = 0 \/ l = 1).

(** ** Instances of the parameters and example data *)

(** Modelled from the spec: the attributes [mean] and [var] of
    [distributions.Gaussian(sample)], a module that is not part of
    classifications.py: the mean and the population variance of a 1-D
    sample. *)
Definition Gaussian_sample_mean p (x : 'cV[R]_p) : R := (\sum_i x i 0) / p%:R.
Definition Gaussian_sample_var p (x : 'cV[R]_p) : R :=
  (\sum_i (x i 0 - Gaussian_sample_mean x) ^+ 2) / p%:R.

(** Four samples of one feature: 0 and 2 of class 0, 5 and 9 of class 1. *)
Definition X_demo : 'M[R]_(4, 1) :=
  \matrix_(i, j) nth 0 [:: 0%coqR; 2%coqR; 5%coqR; 9%coqR] i.
Definition t_demo : 'cV[int]_4 := \col_i nth 0 [:: 0; 0; 1; 1] i.
Definition t_demo_R : 'cV[R]_4 := \col_i nth 0 [:: 0%coqR; 0%coqR; 1%coqR; 1%coqR] i.

(** The linear kernel k(x, y) = x . y on arrays of pairs. *)
Definition linear_kernel p q d (A B : 'M['rV[R]_d]_(p, q)) : 'M[R]_(p, q) :=
  \matrix_(i, j) (A i j *m (B i j)^T) 0 0.

(** * Properties *)

(** ** The linear algebra backend *)

Lemma exact_solve_sound : solver_sound exact_solve.
Proof.
move=> d A b x; rewrite /exact_solve; case: ifP => // Aunit [<-].
by rewrite mulmxA mulmxV // mul1mx.
Qed.

Lemma exact_inv_sound : inverter_sound exact_inv.
Proof.
move=> d A B; rewrite /exact_inv; case: ifP => // Aunit [<-].
by rewrite mulmxV.
Qed.

Lemma inverter_sound_invmx (inv : inverter) d (A B : 'M[R]_d) :
  inverter_sound inv -> inv d A = Some B -> A \in unitmx /\ B = invmx A.
Proof.
move=> sound /sound AB.
have [Aunit _] := mulmx1_unit AB.
by split=> //; rewrite -[B]mul1mx -(mulVmx Aunit) -mulmxA AB mulmx1.
Qed.

(** ** Loops *)

Section Loops.
Variable S : Type.
Variable body : S -> flow * S.

Lemma for_in_cons j rest i s :
  for_in body (j :: rest) i s =
  if (body s).1 is Break then (Some j, (body s).2)
  else for_in body rest (Some j) (body s).2.
Proof. by rewrite /=; case: (body s) => [[] s']. Qed.

(** A non-empty loop stops in its (k+1)-th pass, for some k below the
    length of the range: the k passes before it went on, and the last one
    left by [break] or was the last of the range. *)
Lemma for_in_iota lo m i s :
  (0 < m)%N ->
  exists k sk,
    [/\ (k < m)%N, run body k s = Some sk,
        for_in body (iota lo m) i s = (Some (lo + k)%N, (body sk).2)
      & (body sk).1 = Break \/ k.+1 = m].
Proof.
elim: m lo i s => // m IH lo i s _.
rewrite [iota _ _]/= for_in_cons.
case Hb: (body s).1.
  case: m IH => [|m] IH.
    by exists 0%N, s; rewrite addn0; split=> //; right.
  have [k [sk [km Hrun -> Hlast]]] := IH lo.+1 (Some lo) (body s).2 isT.
  exists k.+1, sk; rewrite addSnnS; split=> //=.
  - by rewrite Hb.
  - by case: Hlast => [->|->]; [left | right].
by exists 0%N, s; rewrite addn0; split=> //; left.
Qed.

(** A pass that leaves by [break] after k passes that went on ends the loop
    with the loop variable at k. *)
Lemma for_in_break lo m i s k sk :
  run body k s = Some sk -> (body sk).1 = Break -> (k < m)%N ->
  for_in body (iota lo m) i s = (Some (lo + k)%N, (body sk).2).
Proof.
elim: k lo m i s => [|k IH] lo [|m] i s //.
  by move=> [<-] Hb _; rewrite [iota _ _]/= for_in_cons Hb addn0.
rewrite [run _ _ _]/=; case Hb: (body s).1 => // Hrun Hbk km.
by rewrite [iota _ _]/= for_in_cons Hb (IH lo.+1 m (Some lo) _ Hrun Hbk) // addSnnS.
Qed.

Lemma for_in_nil i s : for_in body [::] i s = (i, s).
Proof. by []. Qed.

(** The state at the start of pass k + 2 is what pass k + 1 made of the
    state at its own start. *)
Lemma run_last k s s' :
  run body k.+1 s = Some s' ->
  exists2 sk, run body k s = Some sk & body sk = (Next, s').
Proof.
elim: k s => [|k IH] s.
  by rewrite /=; case Hb: (body s) => [[] s1] //= [<-]; exists s.
rewrite [run _ _ _]/=; case Hb: (body s).1 => // /IH [sk Hrun Hsk].
by exists sk => //; rewrite [run _ _ _]/= Hb.
Qed.

End Loops.

Lemma range_nonpos (z : int) : z <= 0 -> range z = [::].
Proof. by case: z => [[|k]|k]. Qed.

Lemma range_pos (z : int) : 1 <= z -> exists2 m, z = Posz m.+1 & range z = iota 0 m.+1.
Proof. by case: z => [[|m]|m] // _; exists m. Qed.

Example range_5 : range 5 = [:: 0; 1; 2; 3; 4]%N.
Proof. by []. Qed.

Example range_negative : range (- 3%:Z) = [::].
Proof. by []. Qed.

(** A loop over [range(5)] that breaks in its second pass leaves i = 1. *)
Example for_in_breaks_second_pass :
  for_in (fun s : nat => if s == 1%N then (Break, s) else (Next, s.+1))
    (range 5) None 0%N = (Some 1%N, 1%N).
Proof. by []. Qed.

(** ** Real numbers *)

Lemma Rsum_ge0 (I : Type) (s : seq I) (P : pred I) (F : I -> R) :
  (forall i, P i -> Rle 0 (F i)) -> Rle 0 (\sum_(i <- s | P i) F i).
Proof.
move=> F0; elim/big_rec: _ => [|i x Pi x0]; first exact: Rle_refl.
by have := F0 i Pi; rewrite /GRing.add /=; lra.
Qed.

Lemma Rsum_gt0 q (F : 'I_q.+1 -> R) :
  (forall k, Rlt 0 (F k)) -> Rlt 0 (\sum_k F k).
Proof.
move=> F0; rewrite big_ord_recl.
have H : Rle 0 (\sum_(i < q) F (lift ord0 i)).
  by apply: Rsum_ge0 => k _; apply: Rlt_le.
by move: H (F0 ord0); set S := \sum_(i < q) _; rewrite /GRing.add /=; lra.
Qed.

Lemma bigRmax_ge (I : eqType) (s : seq I) (F : I -> R) (x0 : R) :
  Rle x0 (\big[Rmax/x0]_(j <- s) F j) /\
  forall k, k \in s -> Rle (F k) (\big[Rmax/x0]_(j <- s) F j).
Proof.
elim: s => [|j s [IH0 IH]]; first by rewrite big_nil; split=> //; exact: Rle_refl.
rewrite big_cons; split; first exact: Rle_trans IH0 (Rmax_r _ _).
move=> k; rewrite in_cons => /orP [/eqP ->|/IH ks]; first exact: Rmax_l.
exact: Rle_trans ks (Rmax_r _ _).
Qed.

Lemma bigRmax_attained (I : eqType) (s : seq I) (F : I -> R) (x0 : R) :
  \big[Rmax/x0]_(j <- s) F j = x0 \/
  exists2 k, k \in s & \big[Rmax/x0]_(j <- s) F j = F k.
Proof.
elim: s => [|j s IH]; first by rewrite big_nil; left.
rewrite big_cons; set m := \big[Rmax/x0]_(j <- s) F j in IH *.
case: (Rmax_case (F j) m (fun r => r = F j \/ r = m)); try by [left | right].
  by move=> ->; right; exists j => //; rewrite mem_head.
move=> ->; case: IH => [->|[k ks ->]]; [by left | right].
by exists k => //; rewrite in_cons ks orbT.
Qed.

(** ** LogisticRegression *)

Section LogisticRegressionFacts.
Variable solve : solver.
Variable alpha : R.
Variables n d : nat.
Implicit Types (X : 'M[R]_(n, d)) (t y : 'cV[R]_n) (w : 'cV[R]_d).

Local Abbreviation fit_body := (LogisticRegression.fit_body solve alpha).
Local Abbreviation fit := (LogisticRegression.fit solve alpha).
Local Abbreviation hessian := (LogisticRegression.hessian alpha).
Local Abbreviation gradient := (LogisticRegression.gradient alpha).
Local Abbreviation predict_proba := LogisticRegression.predict_proba.

(** The weighted product [(X.T * y * (1 - y)) @ X] of line 139 is the
    product with the diagonal matrix of the weights. *)
Lemma LogisticRegression_hessian_diag X y :
  hessian X y = X^T *m diag_mx (\row_i (y i 0 * (1 - y i 0))) *m X + alpha%:M.
Proof.
rewrite /LogisticRegression.hessian scalemx1 mul_mx_diag; congr (_ *m _ + _).
by apply/matrixP => j i; rewrite !mxE mulrA.
Qed.

(** [LogisticRegression.fit] and [BayesianLogisticRegression.fit] build the
    same Hessian. *)
Lemma BayesianLogisticRegression_hessianE X y :
  BayesianLogisticRegression.hessian alpha X y = hessian X y.
Proof.
by rewrite LogisticRegression_hessian_diag /BayesianLogisticRegression.hessian scalemx1.
Qed.

Lemma LogisticRegression_fit_body_fails X t w :
  solve (hessian X (predict_proba w X)) (gradient X t (predict_proba w X) w) = None ->
  fit_body X t w = (Break, w).
Proof. by rewrite /LogisticRegression.fit_body => ->. Qed.

Lemma LogisticRegression_fit_body_solves X t w delta :
  solve (hessian X (predict_proba w X)) (gradient X t (predict_proba w X) w)
    = Some delta ->
  fit_body X t w = (if allclose w (w - delta) then Break else Next, w - delta).
Proof. by rewrite /LogisticRegression.fit_body => ->; case: ifP. Qed.


(** C1: from the weights w at the start of any iteration of
    [LogisticRegression.fit], the iteration computes y = sigmoid(X w), the
    gradient X^T (y - t) + alpha w and the Hessian
    X^T diag(y (1 - y)) X + alpha I, and asks the solver for the solution
    delta of Hessian delta = gradient; when the solver returns delta the new
    weights are w - delta (and delta does solve the system, for a sound
    solver), and when it raises the weights stay w and the loop is left. *)
Theorem LogisticRegression_fit_newton_update X t w :
  solver_sound solve ->
  let y := LogisticRegression._sigmoid (X *m w) in
  let grad := X^T *m (y - t) + alpha *: w in
  let Hess := X^T *m diag_mx (\row_i (y i 0 * (1 - y i 0))) *m X + alpha%:M in
  match solve Hess grad with
  | Some delta => Hess *m delta = grad /\ (fit_body X t w).2 = w - delta
  | None => fit_body X t w = (Break, w)
  end.
Proof.
move=> sound y grad Hess.
have HessE : Hess = hessian X (predict_proba w X).
  by rewrite LogisticRegression_hessian_diag.
case Hs: (solve Hess grad) => [delta|].
  split; first exact: sound Hs.
  by rewrite (@LogisticRegression_fit_body_solves _ _ _ delta) // -HessE.
by apply: LogisticRegression_fit_body_fails; rewrite -HessE.
Qed.


(** When the solve of the (k+1)-th pass fails, [fit] returns normally with
    the weights that pass started from and n_iter = k + 1. *)
Lemma LogisticRegression_fit_solve_fails X t (iter_max : int) k w_k :
  k%:Z < iter_max ->
  run (fit_body X t) k 0 = Some w_k ->
  solve (hessian X (predict_proba w_k X))
          (gradient X t (predict_proba w_k X) w_k) = None ->
  fit X t iter_max = (LogisticRegression.Attrs w_k (Some k.+1), Returns).
Proof.
case: iter_max => // m; rewrite ltz_nat => km Hrun Hs.
have Hb := LogisticRegression_fit_body_fails Hs.
have Hbk : (fit_body X t w_k).1 = Break by rewrite Hb.
by rewrite /LogisticRegression.fit /range (for_in_break 0 None Hrun Hbk km) Hb.
Qed.

(** With iter_max <= 0 the loop variable is never bound. *)
Lemma LogisticRegression_fit_unbound X t (iter_max : int) :
  iter_max <= 0 ->
  fit X t iter_max = (LogisticRegression.Attrs 0 None, Raises UnboundLocalError).
Proof. by move=> /range_nonpos Hr; rewrite /LogisticRegression.fit Hr. Qed.

End LogisticRegressionFacts.

(** ** MultiLogisticRegression *)

Lemma solve_stackP (solve : solver) K d (a : array3 K d d) (b : 'M[R]_(K, d)) :
  match solve_stack solve a b with
  | Some x => forall k, solve d (stack_item a k) (row k b)^T = Some (row k x)^T
  | None => exists k, solve d (stack_item a k) (row k b)^T = None
  end.
Proof.
rewrite /solve_stack; case: ifP => [/forallP ok k|/negbT].
  case Hs: (solve d _ _) (ok k) => [x|] // _; congr Some.
  by apply/matrixP => j i; rewrite !mxE Hs ord1.
by rewrite negb_forall => /existsP [k]; case Hs: (solve d _ _) => // _; exists k.
Qed.

Section MultiLogisticRegressionFacts.
Variable solve : solver.
Variable alpha : R.
Variables n d : nat.

Local Abbreviation fit_body := (MultiLogisticRegression.fit_body solve alpha).
Local Abbreviation fit := (MultiLogisticRegression.fit solve alpha).
Local Abbreviation hessian := (MultiLogisticRegression.hessian alpha).
Local Abbreviation gradient := (MultiLogisticRegression.gradient alpha).
Local Abbreviation predict_proba := MultiLogisticRegression.predict_proba.

Lemma class_block_sym K (X : 'M[R]_(n, d)) (y : 'M[R]_(n, K)) k :
  (class_block alpha X y k)^T = class_block alpha X y k.
Proof.
rewrite /class_block linearD /= tr_scalar_mx; congr (_ + _).
by rewrite !trmx_mul trmxK tr_diag_mx mulmxA.
Qed.

Lemma MultiLogisticRegression_hessian_block K (X : 'M[R]_(n, d)) (y : 'M[R]_(n, K)) i j k :
  hessian X y (i, j, k) = class_block alpha X y k i j.
Proof.
rewrite /MultiLogisticRegression.hessian /class_block ffunE mul_mx_diag !mxE.
congr (_ + _); last by rewrite mulr_natr.
by apply: eq_bigr => m _; rewrite !mxE mulrA.
Qed.

(** [hessian.T[k]], the matrix handed to the solver for class k. *)
Lemma MultiLogisticRegression_hessian_T_item K (X : 'M[R]_(n, d)) (y : 'M[R]_(n, K)) k :
  stack_item (T3 (hessian X y)) k = class_block alpha X y k.
Proof.
rewrite -[RHS]class_block_sym; apply/matrixP => j i.
by rewrite [LHS]mxE ffunE /= MultiLogisticRegression_hessian_block [RHS]mxE.
Qed.

Lemma MultiLogisticRegression_fit_body_fails q (X : 'M[R]_(n, d))
    (T w : 'M[R]_(_, q.+1)) k :
  let y := predict_proba w X in
  solve (class_block alpha X y k) (col k (gradient X T y w)) = None ->
  fit_body X T w = (Break, w).
Proof.
move=> y Hs; rewrite /MultiLogisticRegression.fit_body.
have := solve_stackP solve (T3 (hessian X y)) (gradient X T y w)^T.
rewrite -/y; case: (solve_stack _ _ _) => // x /(_ k).
by rewrite MultiLogisticRegression_hessian_T_item tr_row trmxK Hs.
Qed.

Lemma MultiLogisticRegression_fit_body_solves q (X : 'M[R]_(n, d))
    (T w : 'M[R]_(_, q.+1)) x :
  let y := predict_proba w X in
  solve_stack solve (T3 (hessian X y)) (gradient X T y w)^T = Some x ->
  fit_body X T w = (if allclose w (w - x^T) then Break else Next, w - x^T).
Proof. by move=> y Hs; rewrite /MultiLogisticRegression.fit_body Hs; case: ifP. Qed.

(** C2: in any iteration of [MultiLogisticRegression.fit], from weights w,
    the Hessian tensor holds at [:, :, k] the block
    X^T diag(y[:,k] (1 - y[:,k])) X + alpha I of class k and nothing that
    couples two classes; the iteration hands each class k its own system,
    block k against column k of the gradient, and when every solve succeeds
    column k of the weights becomes column k of w minus the solution of
    class k; when a solve fails the weights stay w and the loop is left. *)
Theorem MultiLogisticRegression_fit_blockwise_update q (X : 'M[R]_(n, d))
    (T w : 'M[R]_(_, q.+1)) :
  let y := MultiLogisticRegression._softmax (X *m w) in
  let grad := X^T *m (y - T) + alpha *: w in
  let block k := X^T *m diag_mx (\row_i (y i k * (1 - y i k))) *m X + alpha%:M in
  (forall i j k, hessian X y (i, j, k) = block k i j) /\
  if [forall k, solve (block k) (col k grad)] then
    forall k, exists2 delta,
      solve (block k) (col k grad) = Some delta
      & col k (fit_body X T w).2 = col k w - delta
  else fit_body X T w = (Break, w).
Proof.
move=> y grad block; split.
  by move=> i j k; rewrite MultiLogisticRegression_hessian_block.
have HP := solve_stackP solve (T3 (hessian X y)) grad^T.
case: ifP => [/forallP ok k|/negbT].
  case Hst: (solve_stack _ _ _) HP => [x|] HP; last first.
    case: HP => k'; rewrite MultiLogisticRegression_hessian_T_item tr_row trmxK.
    by move=> Hs; have := ok k'; rewrite [X in is_true (isSome X)]Hs.
  have := HP k.
  rewrite MultiLogisticRegression_hessian_T_item tr_row trmxK => Hs.
  exists (row k x)^T => //.
  by rewrite (MultiLogisticRegression_fit_body_solves Hst) /= linearB /= tr_row.
rewrite negb_forall => /existsP [k]; case Hs: (solve _ _) => // _.
exact: (@MultiLogisticRegression_fit_body_fails _ _ _ _ k).
Qed.

End MultiLogisticRegressionFacts.

Lemma solve_stack_fails (solve : solver) K d (a : array3 K d d) (b : 'M[R]_(K, d)) k :
  solve d (stack_item a k) (row k b)^T = None -> solve_stack solve a b = None.
Proof.
move=> Hs; have := solve_stackP solve a b.
by case: (solve_stack _ _ _) => // x /(_ k); rewrite Hs.
Qed.

Lemma MultiLogisticRegression_fit_solve_fails (solve : solver) alpha n d
    (X : 'M[R]_(n, d)) (t : 'cV[nat]_n) (iter_max : int) k w_k :
  let T := MultiLogisticRegression.one_hot t in
  let y := MultiLogisticRegression.predict_proba w_k X in
  (0 < n)%N -> k%:Z < iter_max ->
  run (MultiLogisticRegression.fit_body solve alpha X T) k 0 = Some w_k ->
  solve_stack solve (T3 (MultiLogisticRegression.hessian alpha X y))
    (MultiLogisticRegression.gradient alpha X T y w_k)^T = None ->
  MultiLogisticRegression.fit solve alpha X t iter_max =
    (Some (MultiLogisticRegression.Attrs w_k (Some k.+1)), Returns).
Proof.
case: n X t w_k => // n X t w_k T y _; case: iter_max => // m; rewrite ltz_nat.
move=> km Hrun Hs.
have Hb : MultiLogisticRegression.fit_body solve alpha X T w_k = (Break, w_k).
  by rewrite /MultiLogisticRegression.fit_body Hs.
have Hbk : (MultiLogisticRegression.fit_body solve alpha X T w_k).1 = Break.
  by rewrite Hb.
rewrite /MultiLogisticRegression.fit /range.
by rewrite (for_in_break 0 None Hrun Hbk km) Hb.
Qed.

Lemma MultiLogisticRegression_fit_unbound (solve : solver) alpha n d
    (X : 'M[R]_(n, d)) (t : 'cV[nat]_n) (iter_max : int) :
  iter_max <= 0 ->
  MultiLogisticRegression.fit solve alpha X t iter_max =
    if n is 0 then (None, Raises ValueError)
    else (Some (MultiLogisticRegression.Attrs 0 None), Raises UnboundLocalError).
Proof.
by move=> /range_nonpos Hr; rewrite /MultiLogisticRegression.fit Hr; case: n X t.
Qed.

(** ** The loops of both fitters *)

(** C6: when the solve of the (k+1)-th pass of the loop fails, in
    [LogisticRegression.fit] and in [MultiLogisticRegression.fit] alike,
    the call returns normally, the weights are the ones that pass started
    from, and n_iter is k + 1. *)
Theorem fit_failed_solve_keeps_weights (solve : solver) (alpha : R) n d
    (X : 'M[R]_(n, d)) (iter_max : int) (k : nat) :
  k%:Z < iter_max ->
  (forall (t : 'cV[R]_n) w_k,
     let y := LogisticRegression.predict_proba w_k X in
     run (LogisticRegression.fit_body solve alpha X t) k 0 = Some w_k ->
     solve d (LogisticRegression.hessian alpha X y)
       (LogisticRegression.gradient alpha X t y w_k) = None ->
     LogisticRegression.fit solve alpha X t iter_max =
       (LogisticRegression.Attrs w_k (Some k.+1), Returns))
  /\
  (forall (t : 'cV[nat]_n) w_k,
     let T := MultiLogisticRegression.one_hot t in
     let y := MultiLogisticRegression.predict_proba w_k X in
     (0 < n)%N ->
     run (MultiLogisticRegression.fit_body solve alpha X T) k 0 = Some w_k ->
     solve_stack solve (T3 (MultiLogisticRegression.hessian alpha X y))
       (MultiLogisticRegression.gradient alpha X T y w_k)^T = None ->
     MultiLogisticRegression.fit solve alpha X t iter_max =
       (Some (MultiLogisticRegression.Attrs w_k (Some k.+1)), Returns)).
Proof.
move=> km; split=> t w_k.
  by move=> y Hrun Hs; apply: LogisticRegression_fit_solve_fails.
by move=> T y n0 Hrun Hs; apply: MultiLogisticRegression_fit_solve_fails.
Qed.

(** C10: with iter_max <= 0 the body of the loop never runs, the loop
    variable read by [self.n_iter = i + 1] is unbound and both fitters
    raise instead of returning: [LogisticRegression.fit] leaves the zero
    weights and no n_iter, and so does [MultiLogisticRegression.fit] (on an
    empty t it has raised before, at [np.max]). *)
Theorem fit_nonpositive_iter_max_raises (solve : solver) (alpha : R) n d
    (X : 'M[R]_(n, d)) (tb : 'cV[R]_n) (tm : 'cV[nat]_n) (iter_max : int) :
  iter_max <= 0 ->
  [/\ range iter_max = [::],
      LogisticRegression.fit solve alpha X tb iter_max =
        (LogisticRegression.Attrs 0 None, Raises UnboundLocalError)
    & MultiLogisticRegression.fit solve alpha X tm iter_max =
        if n is 0 then (None, Raises ValueError)
        else (Some (MultiLogisticRegression.Attrs 0 None), Raises UnboundLocalError)].
Proof.
move=> le0; split; first exact: range_nonpos.
  exact: LogisticRegression_fit_unbound.
exact: MultiLogisticRegression_fit_unbound.
Qed.

(** A fit that returns normally was called with iter_max >= 1. *)
Lemma fit_returns_iter_max_pos (solve : solver) (alpha : R) n d
    (X : 'M[R]_(n, d)) (tb : 'cV[R]_n) (tm : 'cV[nat]_n) (iter_max : int) :
  (LogisticRegression.fit solve alpha X tb iter_max).2 = Returns \/
  (MultiLogisticRegression.fit solve alpha X tm iter_max).2 = Returns ->
  1 <= iter_max.
Proof.
case: (lerP iter_max 0) => [le0|]; last by rewrite gtz0_ge1.
rewrite LogisticRegression_fit_unbound // MultiLogisticRegression_fit_unbound //.
by case: n X tb tm => [|n'] X tb tm [].
Qed.

(** ** MultiLogisticRegression: the softmax *)

Lemma softmax_entry p q (a : 'M[R]_(p, q.+1)) i k :
  let m := \big[Rmax/a i ord0]_j a i j in
  MultiLogisticRegression._softmax a i k = exp (a i k - m) / \sum_j exp (a i j - m).
Proof.
rewrite /MultiLogisticRegression._softmax /= !mxE; congr (_ / _).
by apply: eq_bigr => j _; rewrite !mxE.
Qed.

(** softmax of a row of two equal activations is (1/2, 1/2). *)
Example softmax_equal_activations (c : R) k :
  MultiLogisticRegression._softmax (const_mx c : 'M[R]_(1, 2)) 0 k = (1 / 2)%coqR.
Proof.
rewrite softmax_entry !big_ord_recl !big_ord0 !mxE /=.
rewrite /GRing.mul /GRing.add /GRing.opp /GRing.inv /GRing.zero /=.
have -> : Rmax c (Rmax c c) = c by rewrite !Rmax_left //; exact: Rle_refl.
by rewrite Rminus_diag exp_0; field.
Qed.

(** C9: every row of [predict_proba(X)] of a [MultiLogisticRegression]
    is exp(a - m) divided by the sum of exp(a - m) over the row, with a the
    row of X W and m its largest entry; all its entries are positive and
    they sum to 1. *)
Theorem MultiLogisticRegression_predict_proba_row_stochastic d p q
    (w : 'M[R]_(d, q.+1)) (X : 'M[R]_(p, d)) (i : 'I_p) :
  let a := X *m w in
  let y := MultiLogisticRegression.predict_proba w X in
  exists m : R,
    [/\ (forall k, Rle (a i k) m) /\ (exists k, a i k = m),
        forall k, y i k = exp (a i k - m) / \sum_j exp (a i j - m),
        forall k, Rlt 0 (y i k)
      & \sum_k y i k = 1].
Proof.
move=> a y; set m := \big[Rmax/a i ord0]_j a i j; exists m.
have yE k : y i k = exp (a i k - m) / \sum_j exp (a i j - m).
  exact: softmax_entry.
have S0 : Rlt 0 (\sum_j exp (a i j - m)) by apply: Rsum_gt0 => k; apply: exp_pos.
split=> //.
- split=> [k|].
    by have [_] := bigRmax_ge (index_enum 'I_q.+1) (a i) (a i ord0); apply.
  have [mE|[k _ mE]] := bigRmax_attained (index_enum 'I_q.+1) (a i) (a i ord0).
    by exists ord0.
  by exists k.
- by move=> k; rewrite yE; apply: Rdiv_lt_0_compat => //; apply: exp_pos.
- under eq_bigr do rewrite yE.
  rewrite -mulr_suml mulfV //; apply/eqP => S0'.
  by rewrite S0' in S0; exact: (Rlt_irrefl _ S0).
Qed.

(** ** BayesianLogisticRegression *)

Lemma sigmoid_le (a b : R) : Rle a b -> Rle (sigmoid a) (sigmoid b).
Proof.
move=> ab; rewrite /sigmoid.
have ea := exp_pos (- a)%coqR; have eb := exp_pos (- b)%coqR.
have eab : Rle (exp (- b)%coqR) (exp (- a)%coqR).
  case: ab => [ab|->]; last exact: Rle_refl.
  by apply: Rlt_le; apply: exp_increasing; lra.
rewrite /GRing.mul /GRing.add /GRing.one /GRing.inv /GRing.opp /=.
rewrite /Rdiv !Rmult_1_l; apply: Rinv_le_contravar; lra.
Qed.

Lemma sigmoid0 : sigmoid 0 = (1 / 2)%coqR.
Proof.
rewrite /sigmoid /GRing.mul /GRing.add /GRing.one /GRing.inv /GRing.opp /GRing.zero /=.
by rewrite Ropp_0 exp_0.
Qed.

Lemma shrink_toward_0 (mu v : R) :
  Rle 0 v ->
  let r := (mu / sqrt (1 + PI * v / 8))%coqR in
  (Rle 0 r /\ Rle r mu) \/ (Rle mu r /\ Rle r 0).
Proof.
move=> v0 r.
have s1 : (1 <= sqrt (1 + PI * v / 8))%coqR.
  rewrite -{1}sqrt_1; apply: sqrt_le_1_alt.
  have := Rmult_le_pos _ _ (Rlt_le _ _ PI_RGT_0) v0.
  lra.
have i0 : (0 < / sqrt (1 + PI * v / 8))%coqR by apply: Rinv_0_lt_compat; lra.
have i1 : (/ sqrt (1 + PI * v / 8) <= 1)%coqR.
  by have := Rinv_le_contravar _ _ Rlt_0_1 s1; rewrite Rinv_1.
rewrite /r /Rdiv; case: (Rle_dec 0 mu) => mu0; [left | right]; nra.
Qed.

Lemma predict_dist_entry d p (w : 'cV[R]_d) (w_cov : 'M[R]_d) (X : 'M[R]_(p, d)) i :
  let mean_a := (row i X *m w) 0 0 in
  let var_a := (row i X *m w_cov *m (row i X)^T) 0 0 in
  BayesianLogisticRegression.predict_dist w w_cov X i 0 =
    sigmoid (mean_a / sqrt (1 + PI * var_a / 8%coqR)).
Proof.
rewrite /BayesianLogisticRegression.predict_dist /LogisticRegression._sigmoid.
rewrite /= !mxE -!row_mul.
congr (sigmoid (_ / sqrt (1 + PI * _ / _))).
  by apply: eq_bigr => j _; rewrite mxE.
by apply: eq_bigr => j _; rewrite !mxE.
Qed.

(** C5: for a positive semi-definite posterior covariance, every entry of
    [predict_dist(X)] is sigmoid(mean_a / sqrt(1 + pi var_a / 8)) with
    mean_a = x w and var_a = x w_cov x^T >= 0 for the row x of X, and it
    lies between the entry of [predict_proba(X)] and 1/2. *)
Theorem BayesianLogisticRegression_predict_dist_shrinks d p (w : 'cV[R]_d)
    (w_cov : 'M[R]_d) (X : 'M[R]_(p, d)) (i : 'I_p) :
  positive_semidefinite w_cov ->
  let mean_a := (row i X *m w) 0 0 in
  let var_a := (row i X *m w_cov *m (row i X)^T) 0 0 in
  let dist := BayesianLogisticRegression.predict_dist w w_cov X i 0 in
  let proba := LogisticRegression.predict_proba w X i 0 in
  [/\ Rle 0 var_a,
      dist = sigmoid (mean_a / sqrt (1 + PI * var_a / 8%coqR))
    & (Rle proba dist /\ Rle dist (1 / 2)%coqR) \/
      (Rle (1 / 2)%coqR dist /\ Rle dist proba)].
Proof.
move=> psd mean_a var_a dist proba.
have v0 : Rle 0 var_a by apply: psd.
have distE : dist = sigmoid (mean_a / sqrt (1 + PI * var_a / 8%coqR)).
  exact: predict_dist_entry.
have probaE : proba = sigmoid mean_a.
  rewrite /proba /mean_a /LogisticRegression.predict_proba.
  by rewrite /LogisticRegression._sigmoid mxE -row_mul [in RHS]mxE.
split=> //; rewrite distE probaE -sigmoid0.
by case: (shrink_toward_0 mean_a v0) => [[r0 rmu]|[mur r0]]; [right | left];
  split; apply: sigmoid_le.
Qed.

(** ** GaussianProcessClassifier *)

Lemma jitter_scalar n (nu : R) :
  map_mx (fun x => x * nu) (1%:M : 'M[R]_n) = nu%:M.
Proof. by apply/matrixP => i j; rewrite !mxE mulr_natl. Qed.


(** ** LinearDiscriminantAnalysis *)

Section MaskedRows.
Variables n d : nat.
Variable mask : pred 'I_n.
Variable X : 'M[R]_(n, d).


(** The product of the centred selected rows with themselves is the sum of
    the outer products of the centred selected samples. *)
Lemma scatter_mask_rows (m : 'cV[R]_d) :
  (sub_rows (mask_rows mask X) m)^T *m sub_rows (mask_rows mask X) m =
  \sum_(i in mask) (row i X - m^T)^T *m (row i X - m^T).
Proof.
apply/matrixP => j k; rewrite summxE mxE [RHS]big_enum_val.
by apply: eq_bigr => i _; rewrite !mxE big_ord1 !mxE.
Qed.

End MaskedRows.

Lemma LinearDiscriminantAnalysis_check_max n (t : 'cV[int]_n) :
  np_max t = Some 1 -> LinearDiscriminantAnalysis.check t = Returns.
Proof. by rewrite /LinearDiscriminantAnalysis.check => ->. Qed.


(** The assertion of [fit] accepts every t whose labels are exactly 0 and 1. *)
Lemma labels_are_0_1_max n (t : 'cV[int]_n) :
  labels_are_0_1 t -> np_max t = Some 1.
Proof.
case: n t => [|n] t lab.
  by have [_ /(_ (or_introl erefl)) [[]]] := lab 0.
rewrite /np_max; congr Some; apply/le_anti/andP; split.
  apply: bigmax_le => [|i _].
    by have [/(_ (ex_intro _ ord0 erefl)) [->|->]] := lab (t ord0 0).
  by have [/(_ (ex_intro _ i erefl)) [->|->]] := lab (t i 0).
have [_ /(_ (or_intror erefl)) [i <-]] := lab 1.
exact: (le_bigmax _ (fun j => t j 0)).
Qed.

(** C7, as the code has it: [fit] fails at its first statement, before any
    parameter is computed, exactly when the largest label is not 1, with
    the assertion error (on an empty t, with the error of [np.max]). *)
Theorem LinearDiscriminantAnalysis_fit_precondition (inv : inverter)
    (Gaussian_mean Gaussian_var : forall p, 'cV[R]_p -> R) n d
    (X : 'M[R]_(n, d)) (t : 'cV[int]_n) :
  np_max t != Some 1 ->
  ~ labels_are_0_1 t /\
  LinearDiscriminantAnalysis.fit inv Gaussian_mean Gaussian_var X t =
    (None, Raises (if n is 0 then ValueError else AssertionError)).
Proof.
move=> max1; split; first by move=> /labels_are_0_1_max Hm; rewrite Hm eqxx in max1.
rewrite /LinearDiscriminantAnalysis.fit /LinearDiscriminantAnalysis.check.
case: n X t max1 => [|n] X t //= max1.
rewrite -[2]/(1 + 1 : int) (inj_eq (addIr 1)).
have /negbTE -> // : \big[Num.max/t ord0 0]_(i < n.+1) t i 0 != 1.
by apply: contraNN max1 => /eqP ->.
Qed.

(** C7 as stated fails: a target vector of ones has the single label 1,
    passes the assertion, and [fit] goes on to compute. *)
Lemma LinearDiscriminantAnalysis_fit_accepts_all_ones :
  let t : 'cV[int]_2 := const_mx 1 in
  [/\ (exists l : int, l <> 1 /\ ~ exists i, t i 0 = l) /\ ~ labels_are_0_1 t,
      LinearDiscriminantAnalysis.check t = Returns
    & forall inv Gaussian_mean Gaussian_var d (X : 'M[R]_(2, d)),
        (LinearDiscriminantAnalysis.fit inv Gaussian_mean Gaussian_var X t).2
          <> Raises AssertionError].
Proof.
move=> t.
have no0 : ~ exists i, t i 0 = 0 by case=> i; rewrite mxE.
have ok : LinearDiscriminantAnalysis.check t = Returns.
  apply: LinearDiscriminantAnalysis_check_max.
  by rewrite /np_max 2!big_ord_recl big_ord0 !mxE.
split=> //.
  split; first by exists 0.
  by move=> lab; apply: no0; apply/(lab 0); left.
move=> inv gm gv d X; rewrite /LinearDiscriminantAnalysis.fit ok.
by case: (inv _ _).
Qed.

(** ** The theorems at concrete inputs *)

Lemma exact_solve_singular d (b : 'cV[R]_d.+1) : exact_solve (0 : 'M[R]_d.+1) b = None.
Proof. by rewrite /exact_solve unitmxE det0 unitr0. Qed.

Lemma positive_semidefinite_1 d : positive_semidefinite (1%:M : 'M[R]_d).
Proof.
move=> x; rewrite mulmx1 mxE; apply: Rsum_ge0 => j _.
rewrite mxE /GRing.mul /=; exact: Rle_0_sqr.
Qed.

(** The Newton update on the demo data, with the exact solver, alpha = 1
    and zero weights. *)
Lemma LogisticRegression_fit_newton_update_witness :
  solver_sound exact_solve /\
  let X := X_demo in let t := t_demo_R in let w : 'cV[R]_1 := 0 in
  let alpha : R := 1 in
  let y := LogisticRegression._sigmoid (X *m w) in
  let grad := X^T *m (y - t) + alpha *: w in
  let Hess := X^T *m diag_mx (\row_i (y i 0 * (1 - y i 0))) *m X + alpha%:M in
  match exact_solve Hess grad with
  | Some delta =>
      Hess *m delta = grad /\
      (LogisticRegression.fit_body exact_solve alpha X t w).2 = w - delta
  | None => LogisticRegression.fit_body exact_solve alpha X t w = (Break, w)
  end.
Proof.
split; first exact: exact_solve_sound.
exact: (LogisticRegression_fit_newton_update 1 X_demo t_demo_R 0 exact_solve_sound).
Defined.


Lemma LogisticRegression_hessian_0 n d (y : 'cV[R]_n) :
  LogisticRegression.hessian 0 (0 : 'M[R]_(n, d)) y = 0.
Proof. by rewrite /LogisticRegression.hessian mulmx0 scale0r addr0. Qed.

Lemma MultiLogisticRegression_solve_stack_0 n d K (y : 'M[R]_(n, K.+1))
    (g : 'M[R]_(d.+1, K.+1)) :
  solve_stack exact_solve
    (T3 (MultiLogisticRegression.hessian 0 (0 : 'M[R]_(n, d.+1)) y)) g^T = None.
Proof.
apply: (@solve_stack_fails _ _ _ _ _ ord0).
rewrite MultiLogisticRegression_hessian_T_item /class_block mulmx0.
by rewrite -scalemx1 scale0r addr0 exact_solve_singular.
Qed.

(** With all features zero and alpha = 0 the Hessian is singular: the first
    solve fails, and both fitters return the zero weights with n_iter = 1. *)
Lemma fit_failed_solve_keeps_weights_witness :
  (0%:Z < 3) /\
  LogisticRegression.fit exact_solve 0 (0 : 'M[R]_(4, 1)) t_demo_R 3 =
    (LogisticRegression.Attrs 0 (Some 1%N), Returns) /\
  MultiLogisticRegression.fit exact_solve 0 (0 : 'M[R]_(4, 1)) (const_mx 0%N) 3 =
    (Some (MultiLogisticRegression.Attrs 0 (Some 1%N)), Returns).
Proof.
have [LR MLR] :=
  @fit_failed_solve_keeps_weights exact_solve 0 4 1 0 3 0 isT.
split; [by [] | split].
  apply: LR; first by [].
  by rewrite LogisticRegression_hessian_0 exact_solve_singular.
apply: MLR; [by [] | by [] |].
exact: MultiLogisticRegression_solve_stack_0.
Defined.

(** Both fitters on the demo data with iter_max = 0. *)
Lemma fit_nonpositive_iter_max_raises_witness :
  (0 <= 0 :> int) /\
  [/\ range 0 = [::],
      LogisticRegression.fit exact_solve 1 X_demo t_demo_R 0 =
        (LogisticRegression.Attrs 0 None, Raises UnboundLocalError)
    & MultiLogisticRegression.fit exact_solve 1 X_demo (const_mx 0%N) 0 =
        (Some (MultiLogisticRegression.Attrs 0 None), Raises UnboundLocalError)].
Proof.
split; first by [].
exact: (@fit_nonpositive_iter_max_raises exact_solve 1 _ _ X_demo t_demo_R
          (const_mx 0%N) 0 isT).
Defined.

(** The predictive distribution at the last demo sample, with unit weight
    and unit posterior covariance. *)
Lemma BayesianLogisticRegression_predict_dist_shrinks_witness :
  positive_semidefinite (1%:M : 'M[R]_1) /\
  let w : 'cV[R]_1 := const_mx 1 in
  let w_cov : 'M[R]_1 := 1%:M in
  let X := X_demo in
  let i : 'I_4 := ord_max in
  let mean_a := (row i X *m w) 0 0 in
  let var_a := (row i X *m w_cov *m (row i X)^T) 0 0 in
  let dist := BayesianLogisticRegression.predict_dist w w_cov X i 0 in
  let proba := LogisticRegression.predict_proba w X i 0 in
  [/\ Rle 0 var_a,
      dist = sigmoid (mean_a / sqrt (1 + PI * var_a / 8%coqR))
    & (Rle proba dist /\ Rle dist (1 / 2)%coqR) \/
      (Rle (1 / 2)%coqR dist /\ Rle dist proba)].
Proof.
split; first exact: positive_semidefinite_1.
exact: (@BayesianLogisticRegression_predict_dist_shrinks 1 4 (const_mx 1) 1%:M
          X_demo ord_max (@positive_semidefinite_1 1)).
Defined.

Lemma unitmx11 (A : 'M[R]_1) : A 0 0 <> 0 -> A \in unitmx.
Proof. by move=> A0; rewrite unitmxE det_mx11 unitfE; apply/eqP. Qed.



Lemma np_max_t_demo : np_max t_demo = Some 1.
Proof.
rewrite /np_max; congr Some.
by rewrite !big_ord_recl big_ord0 !mxE.
Qed.

(** The within-class scatter of the demo data is invertible: the two
    samples of class 0 differ. *)
Lemma scatter_demo_unit (m0 m1 : 'cV[R]_1) :
  \sum_(i in [pred i | t_demo i 0 == 0]) (row i X_demo - m0^T)^T *m (row i X_demo - m0^T)
  + \sum_(i in [pred i | t_demo i 0 == 1]) (row i X_demo - m1^T)^T *m (row i X_demo - m1^T)
    \in unitmx.
Proof.
apply: unitmx11.
rewrite mxE !summxE.
rewrite [X in X + _]big_mkcond [X in _ + X]big_mkcond /= !big_ord_recl !big_ord0.
rewrite !inE !mxE /= !big_ord1 !mxE /=.
move: (m0 0 ord0) (m1 0 ord0) => a b.
rewrite /GRing.mul /GRing.add /GRing.opp /GRing.zero /= => H.
have h1 := Rle_0_sqr (a - 1)%coqR; have h2 := Rle_0_sqr (b - 7)%coqR.
by rewrite /Rsqr in h1 h2; lra.
Qed.


(** Labels 0, 2, 1, 1: the largest label is 2 and the assertion fails. *)
Lemma LinearDiscriminantAnalysis_fit_precondition_witness :
  let t : 'cV[int]_4 := \col_i nth 0 [:: 0; 2; 1; 1] i in
  np_max t != Some 1 /\
  ~ labels_are_0_1 t /\
  LinearDiscriminantAnalysis.fit exact_inv Gaussian_sample_mean
    Gaussian_sample_var X_demo t = (None, Raises AssertionError).
Proof.
move=> t.
have max2 : np_max t != Some 1.
  by rewrite /np_max !big_ord_recl big_ord0 !mxE.
split; first exact: max2.
exact: (@LinearDiscriminantAnalysis_fit_precondition exact_inv
          Gaussian_sample_mean Gaussian_sample_var _ _ X_demo t max2).
Defined.


(** * Further properties of the estimators *)

(** ** The sigmoid *)

Lemma sigmoid_gt0 (a : R) : Rlt 0 (sigmoid a).
Proof.
rewrite /sigmoid /GRing.mul /GRing.add /GRing.one /GRing.inv /GRing.opp /=.
have := exp_pos (- a)%coqR => ea.
by rewrite /Rdiv Rmult_1_l; apply: Rinv_0_lt_compat; lra.
Qed.

Lemma sigmoid_lt1 (a : R) : Rlt (sigmoid a) 1.
Proof.
rewrite /sigmoid /GRing.mul /GRing.add /GRing.one /GRing.inv /GRing.opp /=.
have := exp_pos (- a)%coqR => ea.
rewrite /Rdiv Rmult_1_l -[X in Rlt _ X]Rinv_1.
by apply: Rinv_lt_contravar; lra.
Qed.

Lemma sigmoid_lt (a b : R) : Rlt a b -> Rlt (sigmoid a) (sigmoid b).
Proof.
move=> ab; rewrite /sigmoid.
have ea := exp_pos (- a)%coqR; have eb := exp_pos (- b)%coqR.
have eab : Rlt (exp (- b)%coqR) (exp (- a)%coqR) by apply: exp_increasing; lra.
rewrite /GRing.mul /GRing.add /GRing.one /GRing.inv /GRing.opp /=.
rewrite /Rdiv !Rmult_1_l; apply: Rinv_lt_contravar; last lra.
by apply: Rmult_lt_0_compat; lra.
Qed.

Lemma sigmoid_gt_half (a : R) : Rlt (0.5)%coqR (sigmoid a) <-> Rlt 0 a.
Proof.
have half : (0.5 = 1 / 2)%coqR by lra.
rewrite half -sigmoid0; split=> [sa|]; last exact: sigmoid_lt.
case: (Rlt_dec 0 a) => // /Rnot_lt_le /sigmoid_le; lra.
Qed.

(** X1: every probability the estimators return through the sigmoid lies
    strictly between 0 and 1: [LogisticRegression.predict_proba],
    [BayesianLogisticRegression.predict_dist] and
    [GaussianProcessClassifier.predict]. *)
Theorem sigmoid_outputs_in_unit_interval :
  [/\ forall d p (w : 'cV[R]_d) (X : 'M[R]_(p, d)) i,
        Rlt 0 (LogisticRegression.predict_proba w X i 0) /\
        Rlt (LogisticRegression.predict_proba w X i 0) 1,
      forall d p (w : 'cV[R]_d) (w_cov : 'M[R]_d) (X : 'M[R]_(p, d)) i,
        Rlt 0 (BayesianLogisticRegression.predict_dist w w_cov X i 0) /\
        Rlt (BayesianLogisticRegression.predict_dist w w_cov X i 0) 1
    & forall kernel n d p (self_X : 'M[R]_(n, d)) self_t self_precision
        (X : GaussianProcessClassifier.ndarray p d) i,
        Rlt 0 (GaussianProcessClassifier.predict kernel self_X self_t
                 self_precision X i 0) /\
        Rlt (GaussianProcessClassifier.predict kernel self_X self_t
               self_precision X i 0) 1].
Proof.
split=> *; rewrite mxE; split; by [exact: sigmoid_gt0 | exact: sigmoid_lt1].
Qed.

(** X2: [LogisticRegression.predict] labels a sample 1 exactly when its
    activation x . w is positive, and 0 otherwise: the decision boundary is
    the hyperplane x . w = 0. *)
Theorem LogisticRegression_predict_boundary d p (w : 'cV[R]_d)
    (X : 'M[R]_(p, d)) (i : 'I_p) :
  LogisticRegression.predict w X i 0 =
    if Rlt_dec 0 ((X *m w) i 0) then 1%N else 0%N.
Proof.
rewrite /LogisticRegression.predict /LogisticRegression.predict_proba.
rewrite /LogisticRegression._sigmoid !mxE.
set a := \sum_j _; have half := sigmoid_gt_half a.
by case: (Rlt_dec _ (sigmoid a)) => h1; case: (Rlt_dec 0 a) => h2 //;
  [case: h2; apply/half | case: h1; apply/half].
Qed.

(** ** The softmax *)

(** X3: subtracting the row maximum does not change the value of
    [_softmax]: every entry is exp(a_k) over the sum of exp(a_j) along its
    row. *)
Theorem MultiLogisticRegression_softmax_unshifted p q (a : 'M[R]_(p, q.+1)) i k :
  MultiLogisticRegression._softmax a i k = exp (a i k) / \sum_j exp (a i j).
Proof.
rewrite softmax_entry; set m := \big[Rmax/_]_j _.
have expB x : exp (x - m) = exp x * (exp m)^-1.
  by rewrite /GRing.add /GRing.opp /GRing.mul /GRing.inv /= exp_plus exp_Ropp.
under eq_bigr do rewrite expB.
rewrite expB -mulr_suml invfM mulrACA mulfV ?mulr1 //.
by apply/eqP => e0; have := exp_pos m; rewrite -[exp m]invrK e0 invr0; exact: Rlt_irrefl.
Qed.

Lemma sigmoid_diff (a0 a1 : R) :
  exp a1 / (exp a0 + exp a1) = sigmoid (a1 - a0).
Proof.
rewrite /sigmoid /GRing.mul /GRing.add /GRing.one /GRing.inv /GRing.opp /=.
have -> : (- (a1 + - a0) = a0 + - a1)%coqR by ring.
rewrite exp_plus exp_Ropp.
have e0 := exp_pos a0; have e1 := exp_pos a1.
by field; split; lra.
Qed.

Lemma mxE_sub m n (A B : 'M[R]_(m, n)) i j : (A - B) i j = A i j - B i j.
Proof. by rewrite !mxE. Qed.

(** X4: with two classes the multinomial model predicts like the binary
    one: the probability of class 1 under weights W is the
    [LogisticRegression.predict_proba] of the weight difference
    W[:, 1] - W[:, 0]. *)
Theorem MultiLogisticRegression_two_classes_sigmoid d p (w : 'M[R]_(d, 2))
    (X : 'M[R]_(p, d)) (i : 'I_p) :
  MultiLogisticRegression.predict_proba w X i ord_max =
  LogisticRegression.predict_proba (col ord_max w - col ord0 w) X i 0.
Proof.
have colE j : (X *m col j w) i 0 = (X *m w) i j.
  by rewrite !mxE; apply: eq_bigr => l _; rewrite mxE.
rewrite /MultiLogisticRegression.predict_proba softmax_entry.
set m := \big[Rmax/_]_j _; set a := X *m w.
rewrite /LogisticRegression.predict_proba /LogisticRegression._sigmoid.
rewrite mulmxBr [RHS]mxE mxE_sub !colE -/a.
have -> : a i ord_max - a i ord0 = (a i ord_max - m) - (a i ord0 - m).
  by rewrite opprB addrA subrK.
rewrite -sigmoid_diff; congr (_ / _).
rewrite 2!big_ord_recl big_ord0 addr0; congr (exp (_ - _) + exp (_ - _)).
by congr (a i _); apply: val_inj.
Qed.

(** ** [np.argmax] and the predicted labels *)

Lemma argmax_from_iota (a : nat -> R) best lo m :
  (best < lo)%N ->
  (forall j, (j < lo)%N -> Rle (a j) (a best)) ->
  (forall j, (j < best)%N -> Rlt (a j) (a best)) ->
  let r := argmax_from a best (iota lo m) in
  [/\ (r < lo + m)%N, forall j, (j < lo + m)%N -> Rle (a j) (a r)
    & forall j, (j < r)%N -> Rlt (a j) (a r)].
Proof.
elim: m best lo => [|m IH] best lo blo ub first /=.
  by rewrite addn0; split.
rewrite addnS -addSn; case: Rlt_dec => [lt|nlt];
  [|have ge := Rnot_lt_le _ _ nlt]; apply: IH => //.
- move=> j; rewrite ltnS leq_eqVlt => /orP [/eqP ->|/ub le]; first exact: Rle_refl.
  exact/Rlt_le/(Rle_lt_trans _ _ _ le lt).
- by move=> j /ub le; exact: Rle_lt_trans le lt.
- exact: ltnW.
- by move=> j; rewrite ltnS leq_eqVlt => /orP [/eqP ->|/ub].
Qed.

(** [np.argmax] returns the first index of a largest entry. *)
Lemma np_argmaxP q (a : 'rV[R]_q.+1) :
  let r := np_argmax a in
  [/\ (r <= q)%N, forall k, Rle (a 0 k) (a 0 (inord r))
    & forall k : 'I_q.+1, (k < r)%N -> Rlt (a 0 k) (a 0 (inord r))].
Proof.
have [] := @argmax_from_iota (fun k => a 0 (inord k)) 0 1 q isT.
- by move=> [|j] // _; exact: Rle_refl.
- by [].
rewrite add1n -/(np_argmax a) => rq ub first; split=> // k.
  by have := ub k (ltn_ord k); rewrite inord_val.
by move=> /first; rewrite inord_val.
Qed.

(** The index [np.argmax] returns is the only one with these two properties. *)
Lemma np_argmax_unique q (a : 'rV[R]_q.+1) (m : 'I_q.+1) :
  (forall k, Rle (a 0 k) (a 0 m)) ->
  (forall k : 'I_q.+1, (k < m)%N -> Rlt (a 0 k) (a 0 m)) ->
  np_argmax a = m.
Proof.
move=> ub first; have [rq rub rfirst] := np_argmaxP a.
set r := np_argmax a in rq rub rfirst *.
have rE : (inord r : 'I_q.+1) = r :> nat by rewrite inordK.
case: (ltngtP r m) => // [rm|mr].
  have := first (inord r); rewrite rE => /(_ rm) lt.
  by have := rub m; move: lt; set x := a 0 _; set y := a 0 _; lra.
have := rfirst m mr => lt.
by have := ub (inord r); move: lt; set x := a 0 _; set y := a 0 _; lra.
Qed.

(** [np.argmax] only looks at how the entries compare. *)
Lemma argmax_from_order (f g : nat -> R) best ks :
  (forall j k, Rlt (f j) (f k) <-> Rlt (g j) (g k)) ->
  argmax_from f best ks = argmax_from g best ks.
Proof.
move=> fg; elim: ks best => //= k ks IH best.
by case: Rlt_dec => h; case: Rlt_dec => // h'; [case: h' | case: h]; apply/fg.
Qed.

Lemma softmax_lt p q (a : 'M[R]_(p, q.+1)) i j k :
  Rlt (MultiLogisticRegression._softmax a i j) (MultiLogisticRegression._softmax a i k)
  <-> Rlt (a i j) (a i k).
Proof.
rewrite !softmax_entry; set m := \big[Rmax/_]_l _.
have S0 : Rlt 0 (\sum_l exp (a i l - m)) by apply: Rsum_gt0 => l; apply: exp_pos.
have iS0 := Rinv_0_lt_compat _ S0.
rewrite /GRing.mul /GRing.inv /=; split=> [lt|lt].
  have := exp_lt_inv _ _ (Rmult_lt_reg_r _ _ _ iS0 lt).
  by rewrite /GRing.add /GRing.opp /=; lra.
apply: Rmult_lt_compat_r => //; apply: exp_increasing.
by rewrite /GRing.add /GRing.opp /=; lra.
Qed.

Lemma row_entry (T : Type) m n (A : 'M[T]_(m, n)) i k : row i A 0 k = A i k.
Proof. by rewrite mxE. Qed.

(** X5: [MultiLogisticRegression.predict] returns, for each sample, the
    first class whose activation in X W is largest: the softmax does not
    change the label, which is the one [LeastSquares.predict] reads off the
    same activations. *)
Theorem MultiLogisticRegression_predict_argmax_activation d p q
    (w : 'M[R]_(d, q.+1)) (X : 'M[R]_(p, d)) (i : 'I_p) :
  let a := X *m w in
  let r := MultiLogisticRegression.predict w X i 0 in
  [/\ (r <= q)%N,
      r = LeastSquares.predict w X i 0,
      forall k, Rle (a i k) (a i (inord r))
    & forall k : 'I_q.+1, (k < r)%N -> Rlt (a i k) (a i (inord r))].
Proof.
move=> a r.
have rE : r = np_argmax (row i a).
  rewrite /r /MultiLogisticRegression.predict mxE /np_argmax.
  apply: argmax_from_order => j k; rewrite !row_entry.
  exact: softmax_lt.
have [rq ub first] := np_argmaxP (row i a).
rewrite -rE in rq ub first; split=> //.
- by rewrite rE /LeastSquares.predict mxE.
- by move=> k; have := ub k; rewrite !row_entry.
- by move=> k /first; rewrite !row_entry.
Qed.

Lemma one_hot_entry n (t : 'cV[nat]_n) (i : 'I_n) k :
  MultiLogisticRegression.one_hot t i k = if t i 0 == k :> nat then 1 else 0.
Proof. by rewrite mxE; case: eqP. Qed.

Lemma label_lt_n_classes n (t : 'cV[nat]_n) (i : 'I_n) :
  (t i ord0 < MultiLogisticRegression.n_classes t)%N.
Proof. by rewrite ltnS; exact: (leq_bigmax_cond (F := fun j => t j ord0)). Qed.

Lemma one_hot_argmax n (t : 'cV[nat]_n) (i : 'I_n) :
  np_argmax (row i (MultiLogisticRegression.one_hot t)) = t i 0.
Proof.
pose m := Ordinal (label_lt_n_classes t i).
rewrite -[RHS]/(val m); apply: np_argmax_unique => [k|k km];
  rewrite !row_entry !one_hot_entry eqxx.
  by case: (_ == _); rewrite /GRing.one /GRing.zero /=; lra.
have -> : (t i 0 == k) = false.
  by apply: negbTE; apply/eqP => e; rewrite /= e ltnn in km.
by rewrite /GRing.one /GRing.zero /=; lra.
Qed.

(** X6: one-hot encoding and [np.argmax] are inverse to each other: row i
    of [np.eye(n_classes)[t]] has the single entry 1 at column t[i], its
    entries sum to 1, and its argmax is t[i]. *)
Theorem one_hot_argmax_round_trip n (t : 'cV[nat]_n) (i : 'I_n) :
  let T := MultiLogisticRegression.one_hot t in
  [/\ forall k, T i k = if t i 0 == k :> nat then 1 else 0,
      \sum_k T i k = 1
    & np_argmax (row i T) = t i 0].
Proof.
move=> T; split; [exact: one_hot_entry | | exact: one_hot_argmax].
pose m := Ordinal (label_lt_n_classes t i).
rewrite (bigD1 m) //= one_hot_entry eqxx big1 ?addr0 // => k km.
rewrite one_hot_entry; case: eqP => // e; case/negP: km.
by apply/eqP; apply: val_inj; rewrite /= -e.
Qed.

(** ** LeastSquares *)

(** X7: when the pseudo-inverse returned for X is a right inverse of X (X
    has full row rank), [LeastSquares.fit] returns with W = pinv(X) T and
    [predict] on the training inputs gives back the training labels. *)
Theorem LeastSquares_fit_recovers_training_labels
    (pinv : forall n d, 'M[R]_(n, d) -> option 'M[R]_(d, n)) n d
    (X : 'M[R]_(n, d)) (t : 'cV[nat]_n) (X_pinv : 'M[R]_(d, n)) :
  (0 < n)%N -> pinv n d X = Some X_pinv -> X *m X_pinv = 1%:M ->
  let W := X_pinv *m MultiLogisticRegression.one_hot t in
  LeastSquares.fit pinv X t = (Some W, Returns) /\
  LeastSquares.predict (q := \max_i t i ord0) W X = t.
Proof.
move=> n0 Hp XP W; split.
  rewrite /W {W}; case: n n0 X t X_pinv Hp XP => // n' _ X t X_pinv Hp _.
  by rewrite /LeastSquares.fit Hp.
apply/matrixP => i j; rewrite (ord1 j) mxE /W mulmxA XP mul1mx.
exact: one_hot_argmax.
Qed.

(** The identity matrix as training inputs, with labels 0 and 1 and the
    generalised inverse of MathComp as pseudo-inverse. *)
Lemma LeastSquares_fit_recovers_training_labels_witness :
  let pinv := fun n d (A : 'M[R]_(n, d)) => Some (pinvmx A) in
  let X : 'M[R]_2 := 1%:M in
  let t : 'cV[nat]_2 := \col_i (i : nat) in
  [/\ (0 < 2)%N, X *m pinvmx X = 1%:M,
      LeastSquares.fit pinv X t =
        (Some (pinvmx X *m MultiLogisticRegression.one_hot t), Returns)
    & LeastSquares.predict (q := \max_i t i ord0)
        (pinvmx X *m MultiLogisticRegression.one_hot t) X = t].
Proof.
move=> pinv X t.
have XP : X *m pinvmx X = 1%:M by rewrite mulmxVp // row_free_unit unitmx1.
have [fitE predE] :=
  @LeastSquares_fit_recovers_training_labels pinv 2 2 X t (pinvmx X) isT erefl XP.
by split.
Defined.

(** ** The loop of MultiLogisticRegression.fit *)

(** X8: on a non-empty training set and with iter_max >= 1,
    [MultiLogisticRegression.fit] returns normally after k passes of its
    loop, 1 <= k <= iter_max, with n_iter = k and the weights of the k-th
    pass; it stops before iter_max only at a pass that left the loop. *)
Theorem MultiLogisticRegression_fit_n_iter_bound (solve : solver) (alpha : R)
    n d (X : 'M[R]_(n, d)) (t : 'cV[nat]_n) (iter_max : int) :
  (0 < n)%N -> 1 <= iter_max ->
  let body :=
    MultiLogisticRegression.fit_body solve alpha X (MultiLogisticRegression.one_hot t) in
  exists (k : nat) w_k,
    [/\ (1 <= k)%N /\ k%:Z <= iter_max,
        run body k.-1 0 = Some w_k,
        MultiLogisticRegression.fit solve alpha X t iter_max =
          (Some (MultiLogisticRegression.Attrs (body w_k).2 (Some k)), Returns)
      & k%:Z < iter_max -> (body w_k).1 = Break].
Proof.
case: n X t => // n X t _ /range_pos [m -> Hrange] body.
have [k [w_k [km Hrun Hfor Hlast]]] := for_in_iota body 0 None 0 (ltn0Sn m).
exists k.+1, w_k; split=> //.
- by rewrite /MultiLogisticRegression.fit Hrange -/body Hfor add0n.
- by rewrite ltz_nat => km'; case: Hlast => // [[kmE]]; rewrite kmE ltnn in km'.
Qed.

Lemma MultiLogisticRegression_fit_n_iter_bound_witness :
  [/\ (0 < 4)%N, (1 <= 3 :> int)
    & exists (k : nat) w_k,
        (1 <= k)%N /\ k%:Z <= 3 /\
        MultiLogisticRegression.fit exact_solve 1 X_demo (const_mx 0%N) 3 =
          (Some (MultiLogisticRegression.Attrs w_k (Some k)), Returns)].
Proof.
split=> //.
have [k [w_k [[k1 k3] _ fitE _]]] :=
  @MultiLogisticRegression_fit_n_iter_bound exact_solve 1 _ _ X_demo
    (const_mx 0%N) 3 isT isT.
by exists k; eexists; split; [|split; [|exact: fitE]].
Defined.

(** ** Positive definite Hessians and covariances *)

Lemma quad_scalar d (a : R) (x : 'rV[R]_d) :
  (x *m a%:M *m x^T) 0 0 = a * \sum_j x 0 j * x 0 j.
Proof.
rewrite mul_mx_scalar -scalemxAl mxE mxE; congr (_ * _).
by apply: eq_bigr => j _; rewrite mxE.
Qed.

Lemma sumsq_ge0 d (x : 'rV[R]_d) : Rle 0 (\sum_j x 0 j * x 0 j).
Proof. by apply: Rsum_ge0 => j _; rewrite /GRing.mul /=; exact: Rle_0_sqr. Qed.

Lemma sumsq_eq0 d (x : 'rV[R]_d) : Rle (\sum_j x 0 j * x 0 j) 0 -> x = 0.
Proof.
move=> le0; apply/matrixP => i j; rewrite (ord1 i) [RHS]mxE.
have := le0; rewrite (bigD1 j) //=.
have : Rle 0 (\sum_(k < d | k != j) x 0 k * x 0 k).
  by apply: Rsum_ge0 => k _; rewrite /GRing.mul /=; exact: Rle_0_sqr.
set s := \sum_(k < d | _) _; move: (x 0 j) => y.
rewrite /GRing.mul /GRing.add /GRing.zero /= => s0 le.
by have := Rle_0_sqr y; rewrite /Rsqr => y0; nra.
Qed.

(** A matrix whose quadratic form vanishes only at 0 is invertible. *)
Lemma definite_unitmx d (A : 'M[R]_d) :
  (forall x : 'rV[R]_d, (x *m A *m x^T) 0 0 = 0 -> x = 0) -> A \in unitmx.
Proof.
move=> def; rewrite -row_free_unit; apply: inj_row_free => v vA.
by apply: def; rewrite vA mul0mx mxE.
Qed.

(** A positive semi-definite matrix plus a positive multiple of the
    identity is invertible. *)
Lemma psd_ridge_unitmx d (G : 'M[R]_d) (a : R) :
  positive_semidefinite G -> Rlt 0 a -> G + a%:M \in unitmx.
Proof.
move=> psd a0; apply: definite_unitmx => x.
rewrite mulmxDr mulmxDl mxE quad_scalar => q0.
apply: sumsq_eq0; have := psd x; have := sumsq_ge0 x; move: q0.
set s := \sum_j _; set g := (x *m G *m x^T) 0 0.
by rewrite /GRing.mul /GRing.add /GRing.zero /=; nra.
Qed.

Lemma psd_ridge d (G : 'M[R]_d) (a : R) :
  positive_semidefinite G -> Rle 0 a -> positive_semidefinite (G + a%:M).
Proof.
move=> psd a0 x; rewrite mulmxDr mulmxDl mxE quad_scalar.
have := psd x; have := sumsq_ge0 x.
set s := \sum_j _; set g := (x *m G *m x^T) 0 0.
by rewrite /GRing.mul /GRing.add /GRing.zero /=; nra.
Qed.

(** X^T diag(v) X is positive semi-definite for non-negative weights v. *)
Lemma psd_weighted_gram n d (X : 'M[R]_(n, d)) (v : 'rV[R]_n) :
  (forall i, Rle 0 (v 0 i)) -> positive_semidefinite (X^T *m diag_mx v *m X).
Proof.
move=> v0 x.
have -> : x *m (X^T *m diag_mx v *m X) *m x^T =
          (x *m X^T) *m diag_mx v *m (x *m X^T)^T.
  by rewrite trmx_mul trmxK !mulmxA.
rewrite mul_mx_diag mxE; apply: Rsum_ge0 => i _; rewrite !mxE.
set u := \sum_j _; have := v0 i; have := Rle_0_sqr u.
by rewrite /Rsqr /GRing.mul /=; nra.
Qed.

Lemma weighted_gram_sym n d (X : 'M[R]_(n, d)) (v : 'rV[R]_n) (a : R) :
  (X^T *m diag_mx v *m X + a%:M)^T = X^T *m diag_mx v *m X + a%:M.
Proof.
rewrite linearD /= tr_scalar_mx; congr (_ + _).
by rewrite !trmx_mul trmxK tr_diag_mx mulmxA.
Qed.

Lemma sigmoid_variance_ge0 (a : R) : Rle 0 (sigmoid a * (1 - sigmoid a)).
Proof.
have := sigmoid_gt0 a; have := sigmoid_lt1 a; move: (sigmoid a) => y.
by rewrite /GRing.mul /GRing.add /GRing.opp /GRing.one /=; nra.
Qed.

Lemma allclose_refl m n (a : 'M[R]_(m, n)) : allclose a a.
Proof.
apply/forallP => i; apply/forallP => j; rewrite /Rleb.
case: Rle_dec => [//|nle]; exfalso; apply: nle.
have e : a i j - a i j = 0 by exact: subrr.
rewrite [X in Rabs X]e /GRing.zero /GRing.add /GRing.mul /= Rabs_R0.
by have := Rabs_pos (a i j); rewrite /atol /rtol; nra.
Qed.

Lemma LogisticRegression_hessian_psd (alpha : R) n d (X : 'M[R]_(n, d))
    (w : 'cV[R]_d) :
  Rle 0 alpha ->
  positive_semidefinite
    (LogisticRegression.hessian alpha X (LogisticRegression.predict_proba w X)).
Proof.
move=> a0; rewrite LogisticRegression_hessian_diag; apply: psd_ridge => //.
by apply: psd_weighted_gram => i; rewrite !mxE; exact: sigmoid_variance_ge0.
Qed.

Lemma LogisticRegression_hessian_unit (alpha : R) n d (X : 'M[R]_(n, d))
    (w : 'cV[R]_d) :
  Rlt 0 alpha ->
  LogisticRegression.hessian alpha X (LogisticRegression.predict_proba w X)
    \in unitmx.
Proof.
move=> a0; rewrite LogisticRegression_hessian_diag; apply: psd_ridge_unitmx => //.
by apply: psd_weighted_gram => i; rewrite !mxE; exact: sigmoid_variance_ge0.
Qed.

(** X9: with a positive prior precision alpha the Hessian of every pass of
    [LogisticRegression.fit] is symmetric and invertible, so a solver that
    fails on singular systems only never raises: the pass is the Newton step
    w - H^-1 grad, and it ends the loop exactly when [np.allclose] holds. *)
Theorem LogisticRegression_ridge_newton_step (alpha : R) n d
    (X : 'M[R]_(n, d)) (t : 'cV[R]_n) (w : 'cV[R]_d) :
  Rlt 0 alpha ->
  let y := LogisticRegression.predict_proba w X in
  let H := LogisticRegression.hessian alpha X y in
  let w' := w - invmx H *m LogisticRegression.gradient alpha X t y w in
  [/\ H^T = H, H \in unitmx
    & LogisticRegression.fit_body exact_solve alpha X t w =
        (if allclose w w' then Break else Next, w')].
Proof.
move=> a0 y H w'.
have Hunit : H \in unitmx by exact: LogisticRegression_hessian_unit.
split=> //; first by rewrite /H LogisticRegression_hessian_diag weighted_gram_sym.
rewrite (@LogisticRegression_fit_body_solves _ _ _ _ _ _ _
          (invmx H *m LogisticRegression.gradient alpha X t y w)) //.
by rewrite /exact_solve -/y -/H Hunit.
Qed.

Lemma LogisticRegression_ridge_newton_step_witness :
  Rlt 0 1 /\
  let alpha : R := 1 in
  let y := LogisticRegression.predict_proba (0 : 'cV[R]_1) X_demo in
  let H := LogisticRegression.hessian alpha X_demo y in
  let w' := 0 - invmx H *m LogisticRegression.gradient alpha X_demo t_demo_R y 0 in
  [/\ H^T = H, H \in unitmx
    & LogisticRegression.fit_body exact_solve alpha X_demo t_demo_R 0 =
        (if allclose 0 w' then Break else Next, w')].
Proof.
split; first exact: Rlt_0_1.
exact: (@LogisticRegression_ridge_newton_step 1 _ _ X_demo t_demo_R 0 Rlt_0_1).
Defined.

Lemma LogisticRegression_fit_body_stationary (solve : solver) (alpha : R) n d
    (X : 'M[R]_(n, d)) (t : 'cV[R]_n) (w : 'cV[R]_d) :
  solver_sound solve -> Rlt 0 alpha ->
  LogisticRegression.gradient alpha X t (LogisticRegression.predict_proba w X) w = 0 ->
  LogisticRegression.fit_body solve alpha X t w = (Break, w).
Proof.
move=> sound a0 g0; rewrite /LogisticRegression.fit_body g0.
case Hs: (solve _ _ _) => [delta|] //.
have Hunit := LogisticRegression_hessian_unit X w a0.
have d0 : delta = 0.
  by rewrite -[delta]mul1mx -(mulVmx Hunit) -mulmxA (sound _ _ _ _ Hs) mulmx0.
by rewrite d0 subr0 allclose_refl.
Qed.

(** With all features zero and alpha = 1 the first pass ends the loop. *)
Lemma LogisticRegression_fit_zero_features :
  LogisticRegression.fit exact_solve 1 (0 : 'M[R]_(4, 1)) t_demo_R 3 =
    (LogisticRegression.Attrs 0 (Some 1%N), Returns).
Proof.
have g0 : LogisticRegression.gradient 1 (0 : 'M[R]_(4, 1)) t_demo_R
            (LogisticRegression.predict_proba 0 (0 : 'M[R]_(4, 1))) 0 = 0.
  by rewrite /LogisticRegression.gradient trmx0 mul0mx scaler0 addr0.
have Hb := LogisticRegression_fit_body_stationary exact_solve_sound Rlt_0_1 g0.
by rewrite /LogisticRegression.fit /range /= Hb.
Qed.

(** X10: at a stationary point of the penalised likelihood (zero gradient)
    a pass of [LogisticRegression.fit] with alpha > 0 leaves the weights
    unchanged and ends the loop, whether the solver returns or raises; [fit]
    then returns these weights with n_iter the number of that pass. *)
Theorem LogisticRegression_fit_stationary_point (solve : solver) (alpha : R)
    n d (X : 'M[R]_(n, d)) (t : 'cV[R]_n) (iter_max : int) (k : nat)
    (w_k : 'cV[R]_d) :
  solver_sound solve -> Rlt 0 alpha -> k%:Z < iter_max ->
  run (LogisticRegression.fit_body solve alpha X t) k 0 = Some w_k ->
  LogisticRegression.gradient alpha X t
    (LogisticRegression.predict_proba w_k X) w_k = 0 ->
  LogisticRegression.fit_body solve alpha X t w_k = (Break, w_k) /\
  LogisticRegression.fit solve alpha X t iter_max =
    (LogisticRegression.Attrs w_k (Some k.+1), Returns).
Proof.
move=> sound a0 km Hrun g0.
have Hb := LogisticRegression_fit_body_stationary sound a0 g0.
split=> //; case: iter_max km => // m; rewrite ltz_nat => km.
have Hbk : (LogisticRegression.fit_body solve alpha X t w_k).1 = Break by rewrite Hb.
by rewrite /LogisticRegression.fit /range (for_in_break 0 None Hrun Hbk km) Hb.
Qed.

(** With all features zero and alpha = 1 the zero weights are stationary. *)
Lemma LogisticRegression_fit_stationary_point_witness :
  [/\ solver_sound exact_solve, Rlt 0 1, (0%:Z < 3)
    & LogisticRegression.fit exact_solve 1 (0 : 'M[R]_(4, 1)) t_demo_R 3 =
        (LogisticRegression.Attrs 0 (Some 1%N), Returns)].
Proof.
split; [exact: exact_solve_sound | exact: Rlt_0_1 | by [] |].
have [] := @LogisticRegression_fit_stationary_point exact_solve 1 4 1 0 t_demo_R
  3 0 0 exact_solve_sound Rlt_0_1 isT erefl; last by [].
by rewrite /LogisticRegression.gradient trmx0 mul0mx scaler0 addr0.
Defined.

(** ** The Hessian blocks of MultiLogisticRegression *)

Lemma softmax_variance_ge0 p q (a : 'M[R]_(p, q.+1)) i k :
  let y := MultiLogisticRegression._softmax a in
  Rle 0 (y i k * (1 - y i k)).
Proof.
rewrite /= softmax_entry; set m := \big[Rmax/_]_j _.
set S := \sum_j _; set e := exp _.
have e0 : Rlt 0 e by exact: exp_pos.
have eS : Rle e S.
  rewrite /S (bigD1 k) //= -/e.
  have : Rle 0 (\sum_(j < q.+1 | j != k) exp (a i j - m)).
    by apply: Rsum_ge0 => j _; apply: Rlt_le; exact: exp_pos.
  by move: (\sum_(j < q.+1 | j != k) _) => r; rewrite /GRing.add /=; lra.
have S0 : Rlt 0 S by lra.
have iS := Rinv_0_lt_compat _ S0.
have le1 : Rle (Rmult e (Rinv S)) 1.
  have := Rmult_le_compat_r _ _ _ (Rlt_le _ _ iS) eS.
  by rewrite Rinv_r //; lra.
have ge0 : Rle 0 (Rmult e (Rinv S)) by apply: Rmult_le_pos; lra.
move: le1 ge0; rewrite /GRing.mul /GRing.add /GRing.opp /GRing.one /GRing.inv /=.
by move: (Rmult e (Rinv S)) => z; nra.
Qed.

Lemma class_block_unit (alpha : R) n d q (X : 'M[R]_(n, d)) (w : 'M[R]_(d, q.+1)) k :
  Rlt 0 alpha ->
  class_block alpha X (MultiLogisticRegression.predict_proba w X) k \in unitmx.
Proof.
move=> a0; apply: psd_ridge_unitmx => //.
by apply: psd_weighted_gram => i; rewrite mxE; exact: softmax_variance_ge0.
Qed.

(** X11: with alpha > 0 every class block of the Hessian of
    [MultiLogisticRegression.fit] is invertible, so the stacked solve of a
    solver that fails on singular systems only never raises: column k of the
    weights moves by the Newton step of class k, block_k^-1 grad[:, k]. *)
Theorem MultiLogisticRegression_ridge_newton_step (alpha : R) n d q
    (X : 'M[R]_(n, d)) (T : 'M[R]_(n, q.+1)) (w : 'M[R]_(d, q.+1)) :
  Rlt 0 alpha ->
  let y := MultiLogisticRegression.predict_proba w X in
  let grad := MultiLogisticRegression.gradient alpha X T y w in
  let w' : 'M[R]_(d, q.+1) :=
    w - \matrix_(j, k) (invmx (class_block alpha X y k) *m col k grad) j 0 in
  (forall k, class_block alpha X y k \in unitmx) /\
  MultiLogisticRegression.fit_body exact_solve alpha X T w =
    (if allclose w w' then Break else Next, w').
Proof.
move=> a0 y grad w'.
have Bunit k : class_block alpha X y k \in unitmx by exact: class_block_unit.
split=> //.
have := solve_stackP exact_solve (T3 (MultiLogisticRegression.hessian alpha X y)) grad^T.
case Hst: (solve_stack _ _ _) => [x|] HP; last first.
  case: HP => k; rewrite MultiLogisticRegression_hessian_T_item tr_row trmxK.
  by rewrite /exact_solve Bunit.
rewrite (MultiLogisticRegression_fit_body_solves Hst).
suff -> : x^T = \matrix_(j, k) (invmx (class_block alpha X y k) *m col k grad) j 0 by [].
apply/matrixP => j k; rewrite [RHS]mxE.
have := HP k; rewrite MultiLogisticRegression_hessian_T_item tr_row trmxK.
rewrite /exact_solve Bunit => -[->].
by rewrite !mxE.
Qed.

Lemma MultiLogisticRegression_ridge_newton_step_witness :
  Rlt 0 1 /\
  let alpha : R := 1 in
  let T : 'M[R]_(4, 2) := \matrix_(i, k) (if (i < 2)%N == (k == ord0) then 1 else 0) in
  let w : 'M[R]_(1, 2) := 0 in
  let y := MultiLogisticRegression.predict_proba w X_demo in
  let grad := MultiLogisticRegression.gradient alpha X_demo T y w in
  let w' : 'M[R]_(1, 2) :=
    w - \matrix_(j, k) (invmx (class_block alpha X_demo y k) *m col k grad) j 0 in
  (forall k, class_block alpha X_demo y k \in unitmx) /\
  MultiLogisticRegression.fit_body exact_solve alpha X_demo T w =
    (if allclose w w' then Break else Next, w').
Proof.
split; first exact: Rlt_0_1.
exact: (@MultiLogisticRegression_ridge_newton_step 1 _ _ _ X_demo _ 0 Rlt_0_1).
Defined.

(** ** BayesianLogisticRegression.fit *)

Lemma LogisticRegression_fit_returns (solve : solver) (alpha : R) n d
    (X : 'M[R]_(n, d)) (t : 'cV[R]_n) (iter_max : int) :
  1 <= iter_max ->
  exists (k : nat) (w : 'cV[R]_d),
    [/\ (1 <= k)%N, k%:Z <= iter_max
      & LogisticRegression.fit solve alpha X t iter_max =
          (LogisticRegression.Attrs w (Some k), Returns)].
Proof.
case/range_pos => m -> Hrange.
have [k [w_k [km _ Hfor _]]] :=
  for_in_iota (LogisticRegression.fit_body solve alpha X t) 0 None 0 (ltn0Sn m).
exists k.+1, (LogisticRegression.fit_body solve alpha X t w_k).2; split=> //.
by rewrite /LogisticRegression.fit Hrange Hfor add0n.
Qed.

(** The inverse of a symmetric positive semi-definite matrix is positive
    semi-definite. *)
Lemma psd_invmx d (A : 'M[R]_d) :
  A^T = A -> A \in unitmx -> positive_semidefinite A ->
  positive_semidefinite (invmx A).
Proof.
move=> sym Aunit psd x.
have -> : x *m invmx A *m x^T = (x *m invmx A) *m A *m (x *m invmx A)^T.
  by rewrite trmx_mul trmx_inv sym (mulmxKV Aunit) mulmxA.
exact: psd.
Qed.

(** X12: when [BayesianLogisticRegression.fit] returns, with a sound
    inverter and alpha >= 0, the weights and n_iter are those of
    [LogisticRegression.fit], and the stored covariance is the inverse of the
    Hessian of the Newton iteration at these weights: a symmetric positive
    semi-definite matrix, as [predict_dist] needs for its variances. *)
Theorem BayesianLogisticRegression_fit_covariance (solve : solver) (inv : inverter)
    (alpha : R) n d (X : 'M[R]_(n, d)) (t : 'cV[R]_n) (iter_max : int)
    (a : BayesianLogisticRegression.attrs d) :
  inverter_sound inv -> Rle 0 alpha ->
  BayesianLogisticRegression.fit solve inv alpha X t iter_max = (a, Returns) ->
  let w := BayesianLogisticRegression.w a in
  let H := LogisticRegression.hessian alpha X (LogisticRegression.predict_proba w X) in
  exists S,
    [/\ LogisticRegression.fit solve alpha X t iter_max =
          (LogisticRegression.Attrs w (BayesianLogisticRegression.n_iter a), Returns),
        BayesianLogisticRegression.w_cov a = Some S,
        H \in unitmx /\ S = invmx H,
        S^T = S
      & positive_semidefinite S].
Proof.
move=> sound a0; rewrite /BayesianLogisticRegression.fit.
case Hfit: (LogisticRegression.fit _ _ _ _ _) => [[w k] [|e]] //.
rewrite [LogisticRegression.w _]/= [LogisticRegression.n_iter _]/=.
rewrite BayesianLogisticRegression_hessianE.
case Hinv: (inv _ _) => [S|] // [<-] /=.
have [Hunit ->] := inverter_sound_invmx sound Hinv.
have sym : (LogisticRegression.hessian alpha X (LogisticRegression.predict_proba w X))^T
           = LogisticRegression.hessian alpha X (LogisticRegression.predict_proba w X).
  by rewrite LogisticRegression_hessian_diag weighted_gram_sym.
exists (invmx (LogisticRegression.hessian alpha X (LogisticRegression.predict_proba w X))).
split=> //; first by rewrite trmx_inv sym.
by apply: psd_invmx => //; exact: LogisticRegression_hessian_psd.
Qed.

Lemma BayesianLogisticRegression_fit_zero_features :
  let H := LogisticRegression.hessian 1 (0 : 'M[R]_(4, 1))
             (LogisticRegression.predict_proba 0 (0 : 'M[R]_(4, 1))) in
  BayesianLogisticRegression.fit exact_solve exact_inv 1 (0 : 'M[R]_(4, 1)) t_demo_R 3 =
    (BayesianLogisticRegression.Attrs 0 (Some 1%N) (Some (invmx H)), Returns).
Proof.
move=> H; rewrite /BayesianLogisticRegression.fit LogisticRegression_fit_zero_features.
rewrite [LogisticRegression.w _]/= [LogisticRegression.n_iter _]/=.
rewrite BayesianLogisticRegression_hessianE -/H /exact_inv.
by rewrite (LogisticRegression_hessian_unit _ _ Rlt_0_1).
Qed.

Lemma BayesianLogisticRegression_fit_covariance_witness :
  let X : 'M[R]_(4, 1) := 0 in
  let H := LogisticRegression.hessian 1 X (LogisticRegression.predict_proba 0 X) in
  [/\ inverter_sound exact_inv, Rle 0 1,
      BayesianLogisticRegression.fit exact_solve exact_inv 1 X t_demo_R 3 =
        (BayesianLogisticRegression.Attrs 0 (Some 1%N) (Some (invmx H)), Returns)
    & exists S,
      [/\ LogisticRegression.fit exact_solve 1 X t_demo_R 3 =
            (LogisticRegression.Attrs 0 (Some 1%N), Returns),
          Some (invmx H) = Some S,
          H \in unitmx /\ S = invmx H,
          S^T = S
        & positive_semidefinite S]].
Proof.
move=> X H; split.
- exact: exact_inv_sound.
- exact: Rle_0_1.
- exact: BayesianLogisticRegression_fit_zero_features.
- exact: (BayesianLogisticRegression_fit_covariance exact_inv_sound Rle_0_1
           BayesianLogisticRegression_fit_zero_features).
Defined.

(** X13: with alpha > 0, backends that fail on singular matrices only and
    iter_max >= 1, [BayesianLogisticRegression.fit] never raises: it returns
    with all three attributes set, 1 <= n_iter <= iter_max, and the
    covariance the inverse of the Hessian at the final weights. *)
Theorem BayesianLogisticRegression_fit_ridge_returns (alpha : R) n d
    (X : 'M[R]_(n, d)) (t : 'cV[R]_n) (iter_max : int) :
  Rlt 0 alpha -> 1 <= iter_max ->
  exists (k : nat) (w : 'cV[R]_d),
    [/\ (1 <= k)%N, k%:Z <= iter_max
      & BayesianLogisticRegression.fit exact_solve exact_inv alpha X t iter_max =
          (BayesianLogisticRegression.Attrs w (Some k)
             (Some (invmx (BayesianLogisticRegression.hessian alpha X
                             (LogisticRegression.predict_proba w X)))),
           Returns)].
Proof.
move=> a0 /(LogisticRegression_fit_returns exact_solve alpha X t) [k [w [k1 km Hfit]]].
exists k, w; split=> //.
rewrite /BayesianLogisticRegression.fit Hfit.
rewrite [LogisticRegression.w _]/= [LogisticRegression.n_iter _]/= /exact_inv.
by rewrite BayesianLogisticRegression_hessianE (LogisticRegression_hessian_unit _ _ a0).
Qed.

Lemma BayesianLogisticRegression_fit_ridge_returns_witness :
  [/\ Rlt 0 1, (1 : int) <= 3
    & exists (k : nat) (w : 'cV[R]_1),
      [/\ (1 <= k)%N, k%:Z <= 3
        & BayesianLogisticRegression.fit exact_solve exact_inv 1 X_demo t_demo_R 3 =
            (BayesianLogisticRegression.Attrs w (Some k)
               (Some (invmx (BayesianLogisticRegression.hessian 1 X_demo
                               (LogisticRegression.predict_proba w X_demo)))),
             Returns)]].
Proof.
split; [exact: Rlt_0_1 | by [] |].
exact: (@BayesianLogisticRegression_fit_ridge_returns 1 _ _ X_demo t_demo_R 3 Rlt_0_1 isT).
Defined.

(** ** GaussianProcessClassifier.fit *)

(** On the pairs built by [_pairwise] the linear kernel is the matrix of
    inner products. *)
Lemma linear_kernel_pairwise p q d (x : 'M[R]_(p, d)) (y : 'M[R]_(q, d)) :
  linear_kernel (GaussianProcessClassifier._pairwise x y).1
                (GaussianProcessClassifier._pairwise x y).2 = x *m y^T.
Proof.
apply/matrixP => i j; rewrite /GaussianProcessClassifier._pairwise /= !mxE.
by apply: eq_bigr => k _; rewrite !mxE.
Qed.

Lemma psd_gram n d (X : 'M[R]_(n, d)) : positive_semidefinite (X *m X^T).
Proof.
have := @psd_weighted_gram _ _ X^T (const_mx 1) _.
rewrite trmxK diag_const_mx mulmx1; apply => i; rewrite mxE.
exact: Rle_0_1.
Qed.

(** X14: when the Gram matrix of the training inputs is positive
    semi-definite and nu > 0, the covariance Gram + nu I that
    [GaussianProcessClassifier.fit] builds is invertible, so an inverter that
    fails on singular matrices only does not raise and the precision is set;
    when the Gram matrix is also symmetric, the precision is symmetric and
    positive semi-definite. *)
Theorem GaussianProcessClassifier_fit_jitter_invertible
    (kernel : forall p q d, 'M['rV[R]_d]_(p, q) -> 'M['rV[R]_d]_(p, q) -> 'M[R]_(p, q))
    (nu : R) n d (X : GaussianProcessClassifier.ndarray n d) (t : 'cV[R]_n) :
  let X2 := GaussianProcessClassifier.as_2d X in
  let Gram := kernel n n d (GaussianProcessClassifier._pairwise X2 X2).1
                           (GaussianProcessClassifier._pairwise X2 X2).2 in
  positive_semidefinite Gram -> Rlt 0 nu ->
  [/\ Gram + nu%:M \in unitmx,
      GaussianProcessClassifier.fit kernel exact_inv nu X t =
        (GaussianProcessClassifier.Attrs X2 t (Gram + nu%:M)
           (Some (invmx (Gram + nu%:M))), Returns)
    & Gram^T = Gram ->
      (invmx (Gram + nu%:M))^T = invmx (Gram + nu%:M) /\
      positive_semidefinite (invmx (Gram + nu%:M))].
Proof.
move=> X2 Gram psd nu0.
have Cunit : Gram + nu%:M \in unitmx by exact: psd_ridge_unitmx.
split=> //.
  by rewrite /GaussianProcessClassifier.fit jitter_scalar -/X2 -/Gram /exact_inv Cunit.
move=> sym.
have Csym : (Gram + nu%:M)^T = Gram + nu%:M by rewrite linearD /= tr_scalar_mx sym.
split; first by rewrite trmx_inv Csym.
by apply: psd_invmx => //; apply: psd_ridge => //; exact: Rlt_le.
Qed.

(** The demo inputs as a 1-D array, under the linear kernel, with nu = 1. *)
Lemma GaussianProcessClassifier_fit_jitter_invertible_witness :
  let X := GaussianProcessClassifier.Array1 (X_demo : 'cV[R]_4) in
  let Gram := linear_kernel (GaussianProcessClassifier._pairwise X_demo X_demo).1
                            (GaussianProcessClassifier._pairwise X_demo X_demo).2 in
  [/\ positive_semidefinite Gram, Rlt 0 1
    & [/\ Gram + 1%:M \in unitmx,
          GaussianProcessClassifier.fit linear_kernel exact_inv 1 X t_demo_R =
            (GaussianProcessClassifier.Attrs X_demo t_demo_R (Gram + 1%:M)
               (Some (invmx (Gram + 1%:M))), Returns)
        & Gram^T = Gram ->
          (invmx (Gram + 1%:M))^T = invmx (Gram + 1%:M) /\
          positive_semidefinite (invmx (Gram + 1%:M))]].
Proof.
move=> X Gram.
have psd : positive_semidefinite Gram.
  by rewrite /Gram linear_kernel_pairwise; exact: psd_gram.
split; [exact: psd | exact: Rlt_0_1 |].
exact: (@GaussianProcessClassifier_fit_jitter_invertible linear_kernel 1 _ _ X
          t_demo_R psd Rlt_0_1).
Defined.

(** ** LinearDiscriminantAnalysis.fit *)

Lemma sumsq_scale d (w : 'cV[R]_d) (c : R) :
  \sum_i (map_mx (fun x => x / c) w) i 0 * (map_mx (fun x => x / c) w) i 0 =
  (\sum_i w i 0 * w i 0) * (c^-1 * c^-1).
Proof.
rewrite mulr_suml; apply: eq_bigr => i _; rewrite !mxE.
by rewrite mulrACA.
Qed.

Lemma sumsq_col_ge0 d (w : 'cV[R]_d) : Rle 0 (\sum_i w i 0 * w i 0).
Proof.
apply: Rsum_ge0 => i _; have := Rle_0_sqr (w i 0).
by rewrite /Rsqr /GRing.mul /=.
Qed.

(** Dividing a vector by c > 0 divides its norm by c. *)
Lemma norm_scale d (w : 'cV[R]_d) (c : R) :
  Rlt 0 c -> norm (map_mx (fun x => x / c) w) = norm w / c.
Proof.
move=> c0; rewrite /norm sumsq_scale.
have ic : Rlt 0 (/ c) by exact: Rinv_0_lt_compat.
have := sumsq_col_ge0 w; move: (\sum_i _) => s s0.
rewrite /GRing.mul /GRing.inv /= sqrt_mult_alt // sqrt_square //.
exact: Rlt_le.
Qed.

Lemma norm_ge0 d (w : 'cV[R]_d) : Rle 0 (norm w).
Proof. exact: sqrt_pos. Qed.

Lemma norm_clipped d (w0 : 'cV[R]_d) :
  let w := map_mx (fun x => x / clip_min (norm w0) (1e-10)%coqR) w0 in
  [/\ norm w = norm w0 / clip_min (norm w0) (1e-10)%coqR,
      Rle (norm w) 1
    & Rle (1e-10)%coqR (norm w0) -> norm w = 1].
Proof.
move=> w.
have c0 : Rlt 0 (clip_min (norm w0) (1e-10)%coqR).
  by rewrite /clip_min; have := Rmax_r (norm w0) (1e-10)%coqR; lra.
have nE : norm w = norm w0 / clip_min (norm w0) (1e-10)%coqR by exact: norm_scale.
have ic := Rinv_0_lt_compat _ c0.
split=> //.
- rewrite nE /GRing.mul /GRing.inv /GRing.one /=.
  have le := Rmax_l (norm w0) (1e-10)%coqR.
  have := Rmult_le_compat_r _ _ _ (Rlt_le _ _ ic) le.
  by rewrite /clip_min Rinv_r //; move: c0; rewrite /clip_min; lra.
- move=> big; rewrite nE /clip_min Rmax_left // /GRing.mul /GRing.inv /GRing.one /=.
  by rewrite Rinv_r //; lra.
Qed.

(** X15: the direction that [LinearDiscriminantAnalysis.fit] stores is the
    product of the matrix the inverter returned with m1 - m0, divided by its
    norm clipped from below at 1e-10: its norm is at most 1, and exactly 1
    unless the unnormalised direction is shorter than 1e-10. *)
Theorem LinearDiscriminantAnalysis_fit_unit_direction (inv : inverter)
    (Gaussian_mean Gaussian_var : forall p, 'cV[R]_p -> R) n d
    (X : 'M[R]_(n, d)) (t : 'cV[int]_n) (a : LinearDiscriminantAnalysis.attrs d) :
  LinearDiscriminantAnalysis.fit inv Gaussian_mean Gaussian_var X t = (Some a, Returns) ->
  let m0 := mean_axis0 (mask_rows [pred i | t i 0 == 0] X) in
  let m1 := mean_axis0 (mask_rows [pred i | t i 0 == 1] X) in
  exists cov_inv,
    let w0 := cov_inv *m (m1 - m0) in
    [/\ inv d (LinearDiscriminantAnalysis.cov_inclass X t) = Some cov_inv,
        LinearDiscriminantAnalysis.w a =
          map_mx (fun x => x / Rmax (norm w0) (1e-10)%coqR) w0,
        Rle (norm (LinearDiscriminantAnalysis.w a)) 1
      & Rle (1e-10)%coqR (norm w0) -> norm (LinearDiscriminantAnalysis.w a) = 1].
Proof.
rewrite /LinearDiscriminantAnalysis.fit.
case: (LinearDiscriminantAnalysis.check t) => //.
case Hinv: (inv _ _) => [cov_inv|] // [<-] /=.
exists cov_inv; have [_ le1 eq1] := norm_clipped (cov_inv *m
  (mean_axis0 (mask_rows [pred i | t i 0 == 1] X)
   - mean_axis0 (mask_rows [pred i | t i 0 == 0] X))).
by split.
Qed.

Lemma LinearDiscriminantAnalysis_fit_demo_returns :
  exists a, LinearDiscriminantAnalysis.fit exact_inv Gaussian_sample_mean
              Gaussian_sample_var X_demo t_demo = (Some a, Returns).
Proof.
rewrite /LinearDiscriminantAnalysis.fit.
rewrite (LinearDiscriminantAnalysis_check_max np_max_t_demo).
have Sunit : LinearDiscriminantAnalysis.cov_inclass X_demo t_demo \in unitmx.
  rewrite /LinearDiscriminantAnalysis.cov_inclass /= !scatter_mask_rows.
  exact: scatter_demo_unit.
by rewrite {1}/exact_inv Sunit; eexists.
Qed.

Lemma LinearDiscriminantAnalysis_fit_unit_direction_witness :
  exists a,
    LinearDiscriminantAnalysis.fit exact_inv Gaussian_sample_mean
      Gaussian_sample_var X_demo t_demo = (Some a, Returns) /\
    Rle (norm (LinearDiscriminantAnalysis.w a)) 1.
Proof.
have [a fitE] := LinearDiscriminantAnalysis_fit_demo_returns.
exists a; split=> //.
by have [cov_inv [_ _ le1 _]] := LinearDiscriminantAnalysis_fit_unit_direction fitE.
Defined.
